(** * RedisStorage: the Redis secondary-storage backend of ccache

    A shallow embedding of [src/storage/secondary/RedisStorage.cpp] and the
    properties of its connection life cycle and of its three data
    operations [get], [put] and [remove].

    The C++ object is a record of its member variables.  The hiredis
    library, the remote server behind it, [Util::parse_unsigned] and
    [Digest::to_string] are not part of the file: they are the fields of the
    class [Externals], and every method is a function of them.  A method is a
    computation in a small state monad over the object, the outside world
    and the list of hiredis calls made so far; it returns normally, throws
    (the exception of [Util::parse_unsigned]) or aborts (a failed [ASSERT],
    a null [redisContext*] handed to hiredis).  Log lines are not modelled. *)

From Stdlib Require Import ZArith String Ascii List Bool Lia.
From stdpp Require Import base option gmap strings.
Import ListNotations.

Local Open Scope string_scope.
Local Open Scope Z_scope.

(** ** Integer types *)

(** [long long] / [uint64_t] to [int]: the value modulo 2^32, read as a
    signed 32-bit number. *)
Definition to_int (z : Z) : Z :=
  let r := z mod 4294967296 in
  if r <? 2147483648 then r else r - 4294967296.

(** ** hiredis: constants and reply objects *)

Definition REDIS_ERR : Z := -1.
Definition REDIS_OK : Z := 0.
Definition REDIS_ERR_EOF : Z := 3.
Definition REDIS_ERR_TIMEOUT : Z := 6.

Definition REDIS_REPLY_STRING : Z := 1.
Definition REDIS_REPLY_INTEGER : Z := 3.
Definition REDIS_REPLY_NIL : Z := 4.
Definition REDIS_REPLY_STATUS : Z := 5.
Definition REDIS_REPLY_ERROR : Z := 6.

(** [redisReply]: [str] holds the [len] bytes of the C field [str]. *)
Record redisReply : Type := mkReply {
  type : Z;
  integer : Z;
  str : string
}.

Record timeval : Type := mkTimeval {
  tv_sec : Z;
  tv_usec : Z
}.

(** A [const char*] argument of a ["%s"] conversion: the bytes before the
    first NUL. *)
Fixpoint c_str (s : string) : string :=
  match s with
  | EmptyString => EmptyString
  | String c rest =>
      if Ascii.eqb c Ascii.zero then EmptyString else String c (c_str rest)
  end.

(** ** The collaborators of the class *)

Record Url : Type := mkUrl {
  scheme : string;
  host : string;
  port : string;
  path : string
}.

(** What the file takes from outside.  [redisContext] is a non-null
    [redisContext*]; the structure it points to lives in the [World], and
    [context_err] reads its [err] field.  A formatted command is the list of
    its arguments.  [parse_unsigned] is [None] when [Util::parse_unsigned]
    throws.  [HAVE_REDIS_ERR_TIMEOUT] says whether the hiredis headers
    define the macro [REDIS_ERR_TIMEOUT]. *)
Class Externals : Type := {
  Digest : Type;
  Digest_to_string : Digest -> string;
  parse_unsigned : string -> Z -> Z -> string -> option Z;
  HAVE_REDIS_ERR_TIMEOUT : bool;
  redisContext : Type;
  World : Type;
  redisConnectWithTimeout :
    string -> Z -> timeval -> World -> option redisContext * World;
  redisConnectUnixWithTimeout :
    string -> timeval -> World -> option redisContext * World;
  redisReconnect : redisContext -> World -> Z * World;
  redisSetTimeout : redisContext -> timeval -> World -> Z * World;
  redisCommand : redisContext -> list string -> World -> option redisReply * World;
  redisFree : redisContext -> World -> World;
  context_err : redisContext -> World -> Z
}.

(** ** Result types of the storage interface *)

Inductive Error : Type :=
| error
| timeout.

Inductive expected (T : Type) : Type :=
| value (v : T)
| unexpected (e : Error).
Arguments value {T} v.
Arguments unexpected {T} e.

Inductive outcome (A : Type) : Type :=
| Returns (a : A)
| Throws (what : string)
| Aborts.
Arguments Returns {A} a.
Arguments Throws {A} what.
Arguments Aborts {A}.

Section RedisStorage.

Context {ext : Externals}.

(** ** The object *)

Definition DEFAULT_CONNECT_TIMEOUT_MS : Z := 100.
Definition DEFAULT_OPERATION_TIMEOUT_MS : Z := 10000.
Definition DEFAULT_PORT : Z := 6379.

Record RedisStorage : Type := mkRedisStorage {
  m_url : Url;
  m_prefix : string;
  m_context : option redisContext;
  m_connect_timeout : Z;
  m_operation_timeout : Z;
  m_username : option string;
  m_password : option string;
  m_connected : bool;
  m_invalid : bool
}.

Definition milliseconds_to_timeval (ms : Z) : timeval :=
  {| tv_sec := ms / 1000; tv_usec := (ms mod 1000) * 1000 |}.

Definition parse_timeout_attribute
    (attributes : gmap string string) (name : string) (default_value : Z)
    : outcome Z :=
  match attributes !! name with
  | None => Returns default_value
  | Some text =>
      match parse_unsigned text 1 (1000 * 3600) "timeout" with
      | Some v => Returns v
      | None => Throws "timeout"
      end
  end.

Definition parse_string_attribute
    (attributes : gmap string string) (name : string) : option string :=
  attributes !! name.

(** The constructor. *)
Definition RedisStorage_new (url : Url) (attributes : gmap string string)
    : outcome RedisStorage :=
  match parse_timeout_attribute attributes "connect-timeout"
          DEFAULT_CONNECT_TIMEOUT_MS with
  | Returns ct =>
      match parse_timeout_attribute attributes "operation-timeout"
              DEFAULT_OPERATION_TIMEOUT_MS with
      | Returns ot =>
          Returns {| m_url := url;
                     m_prefix := "ccache";
                     m_context := None;
                     m_connect_timeout := ct;
                     m_operation_timeout := ot;
                     m_username := parse_string_attribute attributes "username";
                     m_password := parse_string_attribute attributes "password";
                     m_connected := false;
                     m_invalid := false |}
      | Throws w => Throws w
      | Aborts => Aborts
      end
  | Throws w => Throws w
  | Aborts => Aborts
  end.

(** ** Calls into hiredis, as they appear on the wire *)

Inductive io_event : Type :=
| IoConnect (h : string) (p : Z) (tv : timeval)
| IoConnectUnix (sock : string) (tv : timeval)
| IoReconnect (c : redisContext)
| IoSetTimeout (c : redisContext) (tv : timeval)
| IoCommand (c : redisContext) (argv : list string)
| IoFree (c : redisContext).

(** ** Program states and the monad of methods *)

Record State : Type := mkState {
  self : RedisStorage;
  world : World;
  io : list io_event
}.

Definition M (A : Type) : Type := State -> outcome A * State.

Definition ret {A} (a : A) : M A := fun s => (Returns a, s).

Definition bind {A B} (m : M A) (f : A -> M B) : M B :=
  fun s =>
    match m s with
    | (Returns a, s') => f a s'
    | (Throws w, s') => (Throws w, s')
    | (Aborts, s') => (Aborts, s')
    end.

Definition throw {A} (what : string) : M A := fun s => (Throws what, s).
Definition abort {A} : M A := fun s => (Aborts, s).

Definition this : M RedisStorage := fun s => (Returns (self s), s).

Definition modify (f : RedisStorage -> RedisStorage) : M unit :=
  fun s => (Returns tt, {| self := f (self s); world := world s; io := io s |}).

(** One hiredis call: the event is appended to the trace and the world moves
    as the library says. *)
Definition call {A} (ev : io_event) (f : World -> A * World) : M A :=
  fun s =>
    let (a, w) := f (world s) in
    (Returns a, {| self := self s; world := w; io := io s ++ [ev] |}).

(** Reading a field of the [redisContext] structure: no call, no event. *)
Definition peek {A} (f : World -> A) : M A :=
  fun s => (Returns (f (world s)), s).

End RedisStorage.

Declare Scope method_scope.
Delimit Scope method_scope with method.
Notation "'let*' x ':=' m 'in' k" := (bind m (fun x => k))
  (at level 10, x name, m at level 100, k at level 200) : method_scope.
Local Open Scope method_scope.

Section Methods.

Context {ext : Externals}.

Definition with_context (c : option redisContext) (o : RedisStorage)
    : RedisStorage :=
  {| m_url := m_url o; m_prefix := m_prefix o; m_context := c;
     m_connect_timeout := m_connect_timeout o;
     m_operation_timeout := m_operation_timeout o;
     m_username := m_username o; m_password := m_password o;
     m_connected := m_connected o; m_invalid := m_invalid o |}.

Definition with_connected (b : bool) (o : RedisStorage) : RedisStorage :=
  {| m_url := m_url o; m_prefix := m_prefix o; m_context := m_context o;
     m_connect_timeout := m_connect_timeout o;
     m_operation_timeout := m_operation_timeout o;
     m_username := m_username o; m_password := m_password o;
     m_connected := b; m_invalid := m_invalid o |}.

Definition with_invalid (b : bool) (o : RedisStorage) : RedisStorage :=
  {| m_url := m_url o; m_prefix := m_prefix o; m_context := m_context o;
     m_connect_timeout := m_connect_timeout o;
     m_operation_timeout := m_operation_timeout o;
     m_username := m_username o; m_password := m_password o;
     m_connected := m_connected o; m_invalid := b |}.

(** [std::string::empty]. *)
Definition is_empty (s : string) : bool := String.eqb s "".

(** [redisCommand(m_context, ...)]: hiredis dereferences the handle. *)
Definition command (argv : list string) : M (option redisReply) :=
  let* o := this in
  match m_context o with
  | None => abort
  | Some c => call (IoCommand c argv) (redisCommand c argv)
  end.

(** ** [RedisStorage::get_key_string] *)

Definition get_key_string (o : RedisStorage) (digest : Digest) : string :=
  m_prefix o ++ ":" ++ Digest_to_string digest.

(** ** [RedisStorage::auth] *)

Definition auth : M Z :=
  let* o := this in
  match m_password o with
  | Some password =>
      let* reply :=
        match m_username o with
        | Some username => command ["AUTH"; c_str username; c_str password]
        | None => command ["AUTH"; c_str password]
        end in
      let* _ :=
        match reply with
        | None => modify (with_invalid true)
        | Some r =>
            if type r =? REDIS_REPLY_ERROR then modify (with_invalid true)
            else ret tt
        end in
      let* o' := this in
      if m_invalid o' then ret REDIS_ERR else ret REDIS_OK
  | None => ret REDIS_OK
  end.

(** ** [RedisStorage::connect] *)

(** The block guarded by [if (m_context)]: [true] when the method returns
    [REDIS_OK] from inside it. *)
Definition reconnect : M bool :=
  let* o := this in
  match m_context o with
  | Some c =>
      let* r := call (IoReconnect c) (redisReconnect c) in
      if r =? REDIS_OK then
        let* _ := modify (with_connected true) in
        ret true
      else
        let* _ := call (IoFree c) (fun w => (tt, redisFree c w)) in
        let* _ := modify (with_context None) in
        ret false
  | None => ret false
  end.

(** The three-way choice on the URL: [true] when a connection was attempted
    and [m_context] assigned, [false] when the URL has neither host nor
    path. *)
Definition open_context : M bool :=
  let* o := this in
  let connect_timeout := milliseconds_to_timeval (m_connect_timeout o) in
  if negb (is_empty (host (m_url o))) then
    let* p :=
      if is_empty (port (m_url o)) then ret DEFAULT_PORT
      else match parse_unsigned (port (m_url o)) 1 65535 "port" with
           | Some v => ret (to_int v)
           | None => throw "port"
           end in
    let h := c_str (host (m_url o)) in
    let* c := call (IoConnect h p connect_timeout)
                (redisConnectWithTimeout h p connect_timeout) in
    let* _ := modify (with_context c) in
    ret true
  else if negb (is_empty (path (m_url o))) then
    let sock := c_str (path (m_url o)) in
    let* c := call (IoConnectUnix sock connect_timeout)
                (redisConnectUnixWithTimeout sock connect_timeout) in
    let* _ := modify (with_context c) in
    ret true
  else
    let* _ := modify (with_invalid true) in
    ret false.

Definition connect : M Z :=
  let* o := this in
  if m_connected o then ret REDIS_OK
  else if m_invalid o then ret REDIS_ERR
  else
    let* reconnected := reconnect in
    if reconnected then ret REDIS_OK
    else
      let* o := this in
      if negb (String.eqb (scheme (m_url o)) "redis") then abort
      else
        let* attempted := open_context in
        if negb attempted then ret REDIS_ERR
        else
          let* o := this in
          match m_context o with
          | None =>
              let* _ := modify (with_invalid true) in
              ret REDIS_ERR
          | Some c =>
              let* err := peek (context_err c) in
              if negb (err =? 0) then
                let* _ := modify (with_invalid true) in
                ret err
              else
                let* _ := modify (with_connected true) in
                let tv := milliseconds_to_timeval (m_operation_timeout o) in
                let* _ := call (IoSetTimeout c tv) (redisSetTimeout c tv) in
                auth
          end.

Definition is_error (err : Z) : bool := negb (err =? REDIS_OK).

Definition is_timeout (err : Z) : bool :=
  if HAVE_REDIS_ERR_TIMEOUT then err =? REDIS_ERR_TIMEOUT else false.

(** ** [RedisStorage::get] *)

Definition get (key : Digest) : M (expected (option string)) :=
  let* err := connect in
  if is_timeout err then ret (unexpected timeout)
  else if is_error err then ret (unexpected error)
  else
    let* o := this in
    let key_string := get_key_string o key in
    let* reply := command ["GET"; c_str key_string] in
    let '(found, missing, val) :=
      match reply with
      | None => (false, false, "")
      | Some r =>
          if type r =? REDIS_REPLY_ERROR then (false, false, "")
          else if type r =? REDIS_REPLY_STRING then (true, false, str r)
          else if type r =? REDIS_REPLY_NIL then (false, true, "")
          else (false, false, "")
      end in
    if found then ret (value (Some val))
    else if missing then ret (value None)
    else ret (unexpected error).

(** ** [RedisStorage::put] *)

Definition put (key : Digest) (val : string) (only_if_missing : bool)
    : M (expected bool) :=
  let* err := connect in
  if is_timeout err then ret (unexpected timeout)
  else if is_error err then ret (unexpected error)
  else
    let* o := this in
    let key_string := get_key_string o key in
    let* present :=
      if only_if_missing then
        let* reply := command ["EXISTS"; c_str key_string] in
        let count :=
          match reply with
          | None => 0
          | Some r =>
              if type r =? REDIS_REPLY_ERROR then 0
              else if type r =? REDIS_REPLY_INTEGER then to_int (integer r)
              else 0
          end in
        ret (0 <? count)
      else ret false in
    if present then ret (value false)
    else
      let* reply := command ["SET"; c_str key_string; val] in
      let stored :=
        match reply with
        | None => false
        | Some r =>
            if type r =? REDIS_REPLY_ERROR then false
            else if type r =? REDIS_REPLY_STATUS then true
            else false
        end in
      if stored then ret (value true) else ret (unexpected error).

(** ** [RedisStorage::remove] *)

Definition remove (key : Digest) : M (expected bool) :=
  let* err := connect in
  if is_timeout err then ret (unexpected timeout)
  else if is_error err then ret (unexpected error)
  else
    let* o := this in
    let key_string := get_key_string o key in
    let* reply := command ["DEL"; c_str key_string] in
    let '(removed, missing) :=
      match reply with
      | None => (false, false)
      | Some r =>
          if type r =? REDIS_REPLY_ERROR then (false, false)
          else if type r =? REDIS_REPLY_INTEGER then
            if 0 <? integer r then (true, false) else (false, true)
          else (false, false)
      end in
    if removed then ret (value true)
    else if missing then ret (value false)
    else ret (unexpected error).

End Methods.

(** ** Histories of an object *)

Section Histories.

Context {ext : Externals}.

(** The calls a user of the storage interface can make. *)
Inductive request : Type :=
| Get (key : Digest)
| Put (key : Digest) (val : string) (only_if_missing : bool)
| Remove (key : Digest).

(** The state a request leaves behind, however it ends. *)
Definition perform (r : request) (s : State) : State :=
  match r with
  | Get key => snd (get key s)
  | Put key val only_if_missing => snd (put key val only_if_missing s)
  | Remove key => snd (remove key s)
  end.

(** The states an object built by the constructor goes through: requests,
    and between them anything the outside world does on its own (the server
    changes, the link drops). *)
Inductive reachable (url : Url) (attributes : gmap string string)
    : State -> Prop :=
| reachable_new o w :
    RedisStorage_new url attributes = Returns o ->
    reachable url attributes {| self := o; world := w; io := [] |}
| reachable_request s r :
    reachable url attributes s ->
    reachable url attributes (perform r s)
| reachable_world s w :
    reachable url attributes s ->
    reachable url attributes {| self := self s; world := w; io := io s |}.

(** What holds of the member variables in every reachable state. *)
Record consistent (o : RedisStorage) : Prop := {
  consistent_prefix : m_prefix o = "ccache";
  consistent_connected : m_connected o = true -> m_context o <> None;
  consistent_idle :
    m_connected o = false -> m_invalid o = false -> m_context o = None
}.

(** What no method ever undoes. *)
Record extends (o o' : RedisStorage) : Prop := {
  extends_url : m_url o' = m_url o;
  extends_prefix : m_prefix o' = m_prefix o;
  extends_connect_timeout : m_connect_timeout o' = m_connect_timeout o;
  extends_operation_timeout : m_operation_timeout o' = m_operation_timeout o;
  extends_username : m_username o' = m_username o;
  extends_password : m_password o' = m_password o;
  extends_connected : m_connected o = true -> m_connected o' = true;
  extends_invalid : m_invalid o = true -> m_invalid o' = true
}.

Definition is_reconnect (ev : io_event) : bool :=
  match ev with
  | IoReconnect _ => true
  | _ => false
  end.

(** A trace in which [redisReconnect] was never called. *)
Definition no_reconnect (l : list io_event) : Prop :=
  forallb (fun ev => negb (is_reconnect ev)) l = true.

(** ** The reply classifications, as the specification words them *)

Definition get_as_specified (reply : option redisReply)
    : expected (option string) :=
  match reply with
  | Some r =>
      if type r =? REDIS_REPLY_STRING then value (Some (str r))
      else if type r =? REDIS_REPLY_NIL then value None
      else unexpected error
  | None => unexpected error
  end.

Definition remove_as_specified (reply : option redisReply) : expected bool :=
  match reply with
  | Some r =>
      if type r =? REDIS_REPLY_INTEGER then
        if 0 <? integer r then value true
        else if integer r =? 0 then value false
        else unexpected error
      else unexpected error
  | None => unexpected error
  end.

(** The classification [remove] makes: every integer reply that is not
    positive counts as a missing key. *)
Definition remove_classification (reply : option redisReply) : expected bool :=
  match reply with
  | Some r =>
      if type r =? REDIS_REPLY_INTEGER then
        if 0 <? integer r then value true else value false
      else unexpected error
  | None => unexpected error
  end.

(** A server that keeps what it acknowledges: after a [SET] answered with a
    status reply, a [GET] of the same key on the same connection answers
    with the bytes that were set. *)
Definition server_keeps_values : Prop :=
  forall (c : redisContext) (k v : string) (w w' : World) (r : redisReply),
    redisCommand c ["SET"; k; v] w = (Some r, w') ->
    type r = REDIS_REPLY_STATUS ->
    exists r',
      fst (redisCommand c ["GET"; k] w') = Some r' /\
      type r' = REDIS_REPLY_STRING /\ str r' = v.

End Histories.

(** The two statements of the specification that the code does not meet,
    over every outside world. *)
Definition removal_classified_by (f : option redisReply -> expected bool)
    : Prop :=
  forall (ext : Externals) (key : Digest) (s s1 : State) (c : redisContext),
    connect s = (Returns REDIS_OK, s1) ->
    m_context (self s1) = Some c ->
    fst (remove key s) =
      Returns (f (fst (redisCommand c
                         ["DEL"; c_str (get_key_string (self s1) key)]
                         (world s1)))).

Definition requests_keep_flags : Prop :=
  forall (ext : Externals) (r : request) (s : State),
    m_connected (self (perform r s)) = m_connected (self s) /\
    m_invalid (self (perform r s)) = m_invalid (self s).

(** ** Two instances of the outside world *)

(** Modelled from the spec: [Util::parse_unsigned], which is not in this
    file, reads an unsigned decimal number and fails unless it lies between
    the two bounds. *)
Fixpoint parse_digits (s : string) (acc : Z) : option Z :=
  match s with
  | EmptyString => Some acc
  | String c rest =>
      let n := Z.of_nat (nat_of_ascii c) in
      if (48 <=? n) && (n <=? 57) then parse_digits rest (acc * 10 + (n - 48))
      else None
  end.

Definition parse_unsigned_decimal
    (text : string) (min_value max_value : Z) (description : string)
    : option Z :=
  if is_empty text then None
  else
    match parse_digits text 0 with
    | Some v =>
        if (min_value <=? v) && (v <=? max_value) then Some v else None
    | None => None
    end.

(** A scripted transport: every connection attempt, reconnection and command
    consumes the next entry of its script, whatever is asked. *)
Module Scripted.

Record script : Type := mkScript {
  connects : list (option Z);
  reconnects : list Z;
  replies : list (option redisReply);
  handles : list Z
}.

(** A connection attempt gives no handle ([None]) or a fresh handle whose
    [err] field holds the scripted value. *)
Definition open (w : script) : option nat * script :=
  match connects w with
  | [] => (None, w)
  | None :: rest =>
      (None, {| connects := rest; reconnects := reconnects w;
                replies := replies w; handles := handles w |})
  | Some e :: rest =>
      (Some (length (handles w)),
       {| connects := rest; reconnects := reconnects w;
          replies := replies w; handles := handles w ++ [e] |})
  end.

Definition reopen (c : nat) (w : script) : Z * script :=
  match reconnects w with
  | [] => (REDIS_ERR, w)
  | r :: rest =>
      (r, {| connects := connects w; reconnects := rest;
             replies := replies w; handles := handles w |})
  end.

(** A command gets the next scripted reply; a missing reply is a dropped
    link, which hiredis records in the [err] field of the handle. *)
Definition answer (c : nat) (argv : list string) (w : script)
    : option redisReply * script :=
  match replies w with
  | [] => (None, w)
  | Some r :: rest =>
      (Some r, {| connects := connects w; reconnects := reconnects w;
                  replies := rest; handles := handles w |})
  | None :: rest =>
      (None, {| connects := connects w; reconnects := reconnects w;
                replies := rest;
                handles := <[c := REDIS_ERR_EOF]> (handles w) |})
  end.

Definition externals : Externals := {|
  Digest := string;
  Digest_to_string := fun d => d;
  parse_unsigned := parse_unsigned_decimal;
  HAVE_REDIS_ERR_TIMEOUT := true;
  redisContext := nat;
  World := script;
  redisConnectWithTimeout := fun _ _ _ => open;
  redisConnectUnixWithTimeout := fun _ _ => open;
  redisReconnect := reopen;
  redisSetTimeout := fun _ _ w => (REDIS_OK, w);
  redisCommand := answer;
  redisFree := fun _ w => w;
  context_err := fun c w => nth c (handles w) 0
|}.

Definition url : Url :=
  {| scheme := "redis"; host := "cache.example.org"; port := ""; path := "" |}.

Definition with_password : gmap string string := {[ "password" := "secret" ]}.

Definition status_ok : redisReply :=
  {| type := REDIS_REPLY_STATUS; integer := 0; str := "OK" |}.

Definition error_reply (text : string) : redisReply :=
  {| type := REDIS_REPLY_ERROR; integer := 0; str := text |}.

Definition string_reply (bytes : string) : redisReply :=
  {| type := REDIS_REPLY_STRING; integer := 0; str := bytes |}.

Definition integer_reply (n : Z) : redisReply :=
  {| type := REDIS_REPLY_INTEGER; integer := n; str := "" |}.

(** The object the constructor builds from [url] and the attributes. *)
Definition new_object (attributes : gmap string string)
    : @RedisStorage externals :=
  {| m_url := url; m_prefix := "ccache"; m_context := None;
     m_connect_timeout := 100; m_operation_timeout := 10000;
     m_username := attributes !! "username";
     m_password := attributes !! "password";
     m_connected := false; m_invalid := false |}.

Definition with_url_port (p : string) (o : @RedisStorage externals)
    : @RedisStorage externals :=
  {| m_url := {| scheme := scheme (m_url o); host := host (m_url o);
                 port := p; path := path (m_url o) |};
     m_prefix := m_prefix o; m_context := m_context o;
     m_connect_timeout := m_connect_timeout o;
     m_operation_timeout := m_operation_timeout o;
     m_username := m_username o; m_password := m_password o;
     m_connected := m_connected o; m_invalid := m_invalid o |}.

Definition start (attributes : gmap string string) (w : script)
    : @State externals :=
  {| self := new_object attributes; world := w; io := [] |}.

(** The server has no password set: it answers [AUTH] with an error and
    serves commands all the same. *)
Definition rejecting : script :=
  {| connects := [Some 0]; reconnects := [];
     replies := [Some (error_reply "ERR Client sent AUTH, but no password is set");
                 Some (string_reply "blob")];
     handles := [] |}.

Definition rejecting_writes : script :=
  {| connects := [Some 0]; reconnects := [];
     replies := [Some (error_reply "ERR Client sent AUTH, but no password is set");
                 Some status_ok; Some (integer_reply 1)];
     handles := [] |}.

(** The link drops after the first reply; a reconnection or a second
    connection would succeed. *)
Definition dropping : script :=
  {| connects := [Some 0; Some 0]; reconnects := [REDIS_OK];
     replies := [Some (string_reply "blob"); None; None];
     handles := [] |}.

(** The existence check is answered with 2^32. *)
Definition counting_wide : script :=
  {| connects := [Some 0]; reconnects := [];
     replies := [Some (integer_reply 4294967296); Some status_ok];
     handles := [] |}.

(** A single reply on a healthy connection. *)
Definition replying (r : redisReply) : script :=
  {| connects := [Some 0]; reconnects := [];
     replies := [Some r]; handles := [] |}.

(** The connection attempt ends with [REDIS_ERR_TIMEOUT]. *)
Definition timing_out : script :=
  {| connects := [Some REDIS_ERR_TIMEOUT]; reconnects := [];
     replies := []; handles := [] |}.

End Scripted.

(** A reference server: one key-value store behind every handle it gave
    out. *)
Module Reference.

Record server : Type := mkServer {
  store : gmap string string;
  opened : nat
}.

Definition accept (w : server) : option nat * server :=
  (Some (opened w), {| store := store w; opened := S (opened w) |}).

Definition reply_of (t : Z) (n : Z) (bytes : string) : redisReply :=
  {| type := t; integer := n; str := bytes |}.

Definition execute (argv : list string) (w : server) : redisReply * server :=
  match argv with
  | ["SET"; k; v] =>
      (reply_of REDIS_REPLY_STATUS 0 "OK",
       {| store := <[k := v]> (store w); opened := opened w |})
  | ["GET"; k] =>
      match store w !! k with
      | Some v => (reply_of REDIS_REPLY_STRING 0 v, w)
      | None => (reply_of REDIS_REPLY_NIL 0 "", w)
      end
  | ["EXISTS"; k] =>
      match store w !! k with
      | Some _ => (reply_of REDIS_REPLY_INTEGER 1 "", w)
      | None => (reply_of REDIS_REPLY_INTEGER 0 "", w)
      end
  | ["DEL"; k] =>
      match store w !! k with
      | Some _ =>
          (reply_of REDIS_REPLY_INTEGER 1 "",
           {| store := delete k (store w); opened := opened w |})
      | None => (reply_of REDIS_REPLY_INTEGER 0 "", w)
      end
  | _ => (reply_of REDIS_REPLY_ERROR 0 "ERR unknown command", w)
  end.

Definition serve (c : nat) (argv : list string) (w : server)
    : option redisReply * server :=
  if (c <? opened w)%nat then
    let (r, w') := execute argv w in (Some r, w')
  else (None, w).

Definition externals : Externals := {|
  Digest := string;
  Digest_to_string := fun d => d;
  parse_unsigned := parse_unsigned_decimal;
  HAVE_REDIS_ERR_TIMEOUT := true;
  redisContext := nat;
  World := server;
  redisConnectWithTimeout := fun _ _ _ => accept;
  redisConnectUnixWithTimeout := fun _ _ => accept;
  redisReconnect := fun _ w => (REDIS_OK, w);
  redisSetTimeout := fun _ _ w => (REDIS_OK, w);
  redisCommand := serve;
  redisFree := fun _ w => w;
  context_err := fun _ _ => 0
|}.

Definition new_object : @RedisStorage externals :=
  @mkRedisStorage externals Scripted.url "ccache" None 100 10000 None None
    false false.

Definition start : @State externals :=
  @mkState externals new_object {| store := ∅; opened := 0 |} [].

(** A value with a NUL and a byte above 127 in it. *)
Definition blob : string :=
  String "a" (String Ascii.zero (String (ascii_of_nat 255) "b")).

End Reference.

(** ** The rest of the class: the destructor, and what a life looks like *)

Section Lifetime.

Context {ext : Externals}.

(** [RedisStorage::~RedisStorage]. *)
Definition RedisStorage_delete : M unit :=
  let* o := this in
  match m_context o with
  | Some c =>
      let* _ := call (IoFree c) (fun w => (tt, redisFree c w)) in
      modify (with_context None)
  | None => ret tt
  end.

Definition is_connect (ev : io_event) : bool :=
  match ev with
  | IoConnect _ _ _ | IoConnectUnix _ _ => true
  | _ => false
  end.

Definition is_free (ev : io_event) : bool :=
  match ev with
  | IoFree _ => true
  | _ => false
  end.

(** The calls that use an open handle, and the handle they use. *)
Definition used_handle (ev : io_event) : option redisContext :=
  match ev with
  | IoSetTimeout c _ | IoCommand c _ => Some c
  | _ => None
  end.

(** The shape of a trace: nothing yet, or one connection attempt and after
    it only calls that use the handle the object holds. *)
Definition single_connection (s : State) : Prop :=
  match io s with
  | [] => m_connected (self s) = false /\ m_context (self s) = None
  | ev :: rest =>
      is_connect ev = true /\
      Forall (fun e => exists c,
                used_handle e = Some c /\ m_context (self s) = Some c) rest /\
      (m_connected (self s) = true \/ m_invalid (self s) = true)
  end.

(** A series of requests, one after the other. *)
Definition perform_all (rs : list request) (s : State) : State :=
  fold_left (fun s r => perform r s) rs s.

(** How a request ends, whatever it returns. *)
Definition forget {A} (o : outcome A) : outcome unit :=
  match o with
  | Returns _ => Returns tt
  | Throws what => Throws what
  | Aborts => Aborts
  end.

Definition finish (r : request) (s : State) : outcome unit :=
  match r with
  | Get key => forget (fst (get key s))
  | Put key val only_if_missing => forget (fst (put key val only_if_missing s))
  | Remove key => forget (fst (remove key s))
  end.

(** The request returned the given member of [Error]. *)
Definition fails_with (e : Error) (r : request) (s : State) : Prop :=
  match r with
  | Get key => fst (get key s) = Returns (unexpected e)
  | Put key val only_if_missing =>
      fst (put key val only_if_missing s) = Returns (unexpected e)
  | Remove key => fst (remove key s) = Returns (unexpected e)
  end.

(** A timeout attribute is present and [Util::parse_unsigned] throws on
    it. *)
Definition refused (attributes : gmap string string) (name : string) : Prop :=
  exists text,
    attributes !! name = Some text /\
    parse_unsigned text 1 (1000 * 3600) "timeout" = None.

(** What [Util::parse_unsigned] promises of the number it returns. *)
Definition parse_unsigned_bounded : Prop :=
  forall (text : string) (min_value max_value : Z) (description : string)
         (v : Z),
    parse_unsigned text min_value max_value description = Some v ->
    min_value <= v <= max_value.

(** The commands a request sends once the object is connected, for the
    handle [c]; [present] says whether a conditional [put] found the key. *)
Definition commands_of (o : RedisStorage) (c : redisContext) (r : request)
    (present : bool) : list io_event :=
  match r with
  | Get key => [IoCommand c ["GET"; c_str (get_key_string o key)]]
  | Remove key => [IoCommand c ["DEL"; c_str (get_key_string o key)]]
  | Put key val false =>
      [IoCommand c ["SET"; c_str (get_key_string o key); val]]
  | Put key val true =>
      IoCommand c ["EXISTS"; c_str (get_key_string o key)] ::
      (if present then []
       else [IoCommand c ["SET"; c_str (get_key_string o key); val]])
  end.

(** The connection attempt [connect] makes for the URL of an object: the
    hiredis call as it shows in the trace, and what it does to the world.
    A host wins over a path; a port is 6379 when the URL has none and the
    number [Util::parse_unsigned] reads otherwise; without a host, a path is
    a local socket. *)
Inductive attempt (o : RedisStorage)
    : io_event -> (World -> option redisContext * World) -> Prop :=
| attempt_default_port :
    host (m_url o) <> "" -> port (m_url o) = "" ->
    attempt o
      (IoConnect (c_str (host (m_url o))) DEFAULT_PORT
         (milliseconds_to_timeval (m_connect_timeout o)))
      (redisConnectWithTimeout (c_str (host (m_url o))) DEFAULT_PORT
         (milliseconds_to_timeval (m_connect_timeout o)))
| attempt_port (v : Z) :
    host (m_url o) <> "" -> port (m_url o) <> "" ->
    parse_unsigned (port (m_url o)) 1 65535 "port" = Some v ->
    attempt o
      (IoConnect (c_str (host (m_url o))) (to_int v)
         (milliseconds_to_timeval (m_connect_timeout o)))
      (redisConnectWithTimeout (c_str (host (m_url o))) (to_int v)
         (milliseconds_to_timeval (m_connect_timeout o)))
| attempt_socket :
    host (m_url o) = "" -> path (m_url o) <> "" ->
    attempt o
      (IoConnectUnix (c_str (path (m_url o)))
         (milliseconds_to_timeval (m_connect_timeout o)))
      (redisConnectUnixWithTimeout (c_str (path (m_url o)))
         (milliseconds_to_timeval (m_connect_timeout o))).

End Lifetime.


(** The scripted transport behind hiredis headers older than 1.0.0, which
    do not define [REDIS_ERR_TIMEOUT]. *)
Module Legacy.

Definition externals : Externals := {|
  Digest := string;
  Digest_to_string := fun d => d;
  parse_unsigned := parse_unsigned_decimal;
  HAVE_REDIS_ERR_TIMEOUT := false;
  redisContext := nat;
  World := Scripted.script;
  redisConnectWithTimeout := fun _ _ _ => Scripted.open;
  redisConnectUnixWithTimeout := fun _ _ => Scripted.open;
  redisReconnect := Scripted.reopen;
  redisSetTimeout := fun _ _ w => (REDIS_OK, w);
  redisCommand := Scripted.answer;
  redisFree := fun _ w => w;
  context_err := fun c w => nth c (Scripted.handles w) 0
|}.

Definition start : @State externals :=
  @mkState externals
    (@mkRedisStorage externals Scripted.url "ccache" None 100 10000 None None
       false false)
    Scripted.timing_out [].

End Legacy.

(** Objects and states the scripted transport is run from. *)
Module Samples.

Import Scripted.

(** A new object in front of a server that answers once. *)
Definition fresh : @State externals :=
  start ∅ (replying (string_reply "blob")).

(** The same object after a first successful [get]. *)
Definition served : @State externals :=
  @perform externals (@Get externals "d") fresh.

Definition with_url (u : Url) (o : @RedisStorage externals)
    : @RedisStorage externals :=
  {| m_url := u;
     m_prefix := m_prefix o; m_context := m_context o;
     m_connect_timeout := m_connect_timeout o;
     m_operation_timeout := m_operation_timeout o;
     m_username := m_username o; m_password := m_password o;
     m_connected := m_connected o; m_invalid := m_invalid o |}.

(** A URL with neither host nor path. *)
Definition malformed : @State externals :=
  {| self := with_url {| scheme := "redis"; host := ""; port := "";
                         path := "" |} (new_object ∅);
     world := replying status_ok; io := [] |}.

(** A URL that names a local socket. *)
Definition local : @State externals :=
  {| self := with_url {| scheme := "redis"; host := ""; port := "";
                         path := "/run/redis.sock" |} (new_object ∅);
     world := replying status_ok; io := [] |}.

(** A URL whose port is out of range. *)
Definition port_zero : @State externals :=
  {| self := with_url_port "0" (new_object ∅);
     world := replying status_ok; io := [] |}.

(** An object with a password, holding a handle, about to authenticate. *)
Definition authenticating : @State externals :=
  {| self := @with_context externals (Some 0%nat) (new_object with_password);
     world := replying status_ok; io := [] |}.

(** The attributes and the object of a connect timeout of 250 ms. *)
Definition quarter_second : gmap string string :=
  {[ "connect-timeout" := "250" ]}.

Definition patient : @State externals :=
  {| self := @mkRedisStorage externals url "ccache" None 250 10000 None None
               false false;
     world := replying status_ok; io := [] |}.

End Samples.

(** ** Proof automation *)

Ltac unfold_methods :=
  unfold connect, auth, reconnect, open_context, command,
    bind, ret, this, modify, call, peek, abort, throw in *.

Ltac innermost x :=
  lazymatch x with
  | context [match _ with _ => _ end] => fail
  | _ => idtac
  end.

Ltac break_match :=
  match goal with
  | |- context [match ?x with _ => _ end] =>
      innermost x; destruct x eqn:?
  | H : context [match ?x with _ => _ end] |- _ =>
      innermost x; destruct x eqn:?
  end.

Ltac unfold_codes :=
  unfold REDIS_OK, REDIS_ERR, REDIS_ERR_TIMEOUT, REDIS_REPLY_STRING,
    REDIS_REPLY_INTEGER, REDIS_REPLY_NIL, REDIS_REPLY_STATUS,
    REDIS_REPLY_ERROR in *.

Ltac decide_codes :=
  unfold_codes;
  repeat match goal with
  | H : (_ =? _) = true |- _ => apply Z.eqb_eq in H
  | H : (_ =? _) = false |- _ => apply Z.eqb_neq in H
  | H : (_ <? _) = true |- _ => apply Z.ltb_lt in H
  | H : (_ <? _) = false |- _ => apply Z.ltb_ge in H
  end;
  try congruence; try lia.

Ltac crunch :=
  unfold_methods; simpl in *;
  repeat (break_match; simplify_eq/=);
  simplify_eq/=; auto; try solve [decide_codes].

(** ** The error codes *)

Lemma is_timeout_is_error (ext : Externals) (err : Z) :
  is_timeout err = true -> is_error err = true.
Proof.
  unfold is_timeout, is_error, REDIS_ERR_TIMEOUT, REDIS_OK.
  destruct HAVE_REDIS_ERR_TIMEOUT; [|discriminate].
  intros H. apply Z.eqb_eq in H. subst err. reflexivity.
Qed.

Lemma is_error_false (err : Z) : is_error err = false -> err = REDIS_OK.
Proof.
  unfold is_error. intros H. apply negb_false_iff in H.
  now apply Z.eqb_eq in H.
Qed.

Lemma REDIS_ERR_generic (ext : Externals) :
  is_timeout REDIS_ERR = false /\ is_error REDIS_ERR = true.
Proof. unfold is_timeout. destruct HAVE_REDIS_ERR_TIMEOUT; auto. Qed.

Section Facts.

Context {ext : Externals}.

(** ** [extends] is a preorder *)

Lemma extends_refl (o : RedisStorage) : extends o o.
Proof. constructor; auto. Qed.

Lemma extends_trans (o1 o2 o3 : RedisStorage) :
  extends o1 o2 -> extends o2 o3 -> extends o1 o3.
Proof.
  intros [] []. constructor; try congruence; auto.
Qed.

(** ** [command] *)

Lemma command_self (argv : list string) (s : State) :
  self (snd (command argv s)) = self s.
Proof. crunch. Qed.

Lemma command_sends (argv : list string) (s : State) (c : redisContext) :
  m_context (self s) = Some c ->
  command argv s =
    (Returns (fst (redisCommand c argv (world s))),
     {| self := self s;
        world := snd (redisCommand c argv (world s));
        io := io s ++ [IoCommand c argv] |}).
Proof. intros H. crunch. Qed.

Lemma command_null (argv : list string) (s : State) :
  m_context (self s) = None -> command argv s = (Aborts, s).
Proof. intros H. crunch. Qed.

(** ** [auth] *)

Lemma auth_without_password (s : State) :
  m_password (self s) = None -> auth s = (Returns REDIS_OK, s).
Proof. intros H. crunch. Qed.

Lemma auth_failure (s : State) (c : redisContext) (password : string) :
  m_password (self s) = Some password ->
  m_context (self s) = Some c ->
  let argv :=
    match m_username (self s) with
    | Some username => ["AUTH"; c_str username; c_str password]
    | None => ["AUTH"; c_str password]
    end in
  match fst (redisCommand c argv (world s)) with
  | None => True
  | Some r => type r = REDIS_REPLY_ERROR
  end ->
  fst (auth s) = Returns REDIS_ERR /\
  m_invalid (self (snd (auth s))) = true.
Proof.
  intros Hp Hc argv Hr. subst argv. crunch.
Qed.

(** ** [connect] *)

Lemma connect_connected (s : State) :
  m_connected (self s) = true -> connect s = (Returns REDIS_OK, s).
Proof. intros H. crunch. Qed.

Lemma connect_invalid (s : State) :
  m_connected (self s) = false -> m_invalid (self s) = true ->
  connect s = (Returns REDIS_ERR, s).
Proof. intros H1 H2. crunch. Qed.

Lemma connect_extends (s : State) :
  extends (self s) (self (snd (connect s))).
Proof. crunch; constructor; simpl; auto; congruence. Qed.

Lemma connect_consistent (s : State) :
  consistent (self s) -> consistent (self (snd (connect s))).
Proof.
  intros [Hp Hc Hi]. crunch; constructor; simpl; auto; try congruence.
Qed.

Lemma connect_ok (s s1 : State) (err : Z) :
  connect s = (Returns err, s1) -> is_error err = false ->
  m_connected (self s1) = true.
Proof.
  intros H He. apply is_error_false in He. subst err.
  crunch.
Qed.


Lemma connect_ok_context (s s1 : State) (err : Z) :
  consistent (self s) ->
  connect s = (Returns err, s1) -> is_error err = false ->
  exists c, m_context (self s1) = Some c.
Proof.
  intros Hs H He.
  pose proof (connect_consistent s Hs) as Hs1. rewrite H in Hs1. simpl in Hs1.
  pose proof (consistent_connected _ Hs1 (connect_ok _ _ _ H He)) as Hc.
  destruct (m_context (self s1)) as [c|]; [eauto | congruence].
Qed.

(** ** The data operations keep what [connect] leaves *)

Lemma get_self (key : Digest) (s : State) :
  self (snd (get key s)) = self (snd (connect s)).
Proof.
  unfold get, bind at 1. destruct (connect s) as [[err|what|] s1]; simpl; auto.
  destruct (is_timeout err); simpl; auto.
  destruct (is_error err); simpl; auto.
  crunch.
Qed.

Lemma put_self (key : Digest) (val : string) (only_if_missing : bool)
    (s : State) :
  self (snd (put key val only_if_missing s)) = self (snd (connect s)).
Proof.
  unfold put, bind at 1. destruct (connect s) as [[err|what|] s1]; simpl; auto.
  destruct (is_timeout err); simpl; auto.
  destruct (is_error err); simpl; auto.
  crunch.
Qed.

Lemma remove_self (key : Digest) (s : State) :
  self (snd (remove key s)) = self (snd (connect s)).
Proof.
  unfold remove, bind at 1.
  destruct (connect s) as [[err|what|] s1]; simpl; auto.
  destruct (is_timeout err); simpl; auto.
  destruct (is_error err); simpl; auto.
  crunch.
Qed.

Lemma perform_self (r : request) (s : State) :
  self (perform r s) = self (snd (connect s)).
Proof.
  destruct r; simpl; auto using get_self, put_self, remove_self.
Qed.

Lemma perform_extends (r : request) (s : State) :
  extends (self s) (self (perform r s)).
Proof. rewrite perform_self. apply connect_extends. Qed.

Lemma perform_consistent (r : request) (s : State) :
  consistent (self s) -> consistent (self (perform r s)).
Proof. rewrite perform_self. apply connect_consistent. Qed.

(** ** Reachable states *)

Lemma new_consistent (url : Url) (attributes : gmap string string)
    (o : RedisStorage) :
  RedisStorage_new url attributes = Returns o -> consistent o.
Proof.
  unfold RedisStorage_new. intros H.
  repeat (break_match; simplify_eq/=).
  constructor; simpl; auto; discriminate.
Qed.

Lemma reachable_consistent (url : Url) (attributes : gmap string string)
    (s : State) :
  reachable url attributes s -> consistent (self s).
Proof.
  induction 1; simpl; eauto using new_consistent, perform_consistent.
Qed.

(** Once set, [m_invalid] and [m_connected] stay set. *)
Lemma invalid_stays_set (r : request) (s : State) :
  m_invalid (self s) = true -> m_invalid (self (perform r s)) = true.
Proof. apply perform_extends. Qed.

Lemma connected_stays_set (r : request) (s : State) :
  m_connected (self s) = true -> m_connected (self (perform r s)) = true.
Proof. apply perform_extends. Qed.

(** ** Failing fast *)

Lemma get_invalid (key : Digest) (s : State) :
  m_connected (self s) = false -> m_invalid (self s) = true ->
  get key s = (Returns (unexpected error), s).
Proof.
  intros H1 H2. unfold get, bind.
  rewrite (connect_invalid s H1 H2).
  destruct (REDIS_ERR_generic ext) as [-> ->]. reflexivity.
Qed.

Lemma put_invalid (key : Digest) (val : string) (only_if_missing : bool)
    (s : State) :
  m_connected (self s) = false -> m_invalid (self s) = true ->
  put key val only_if_missing s = (Returns (unexpected error), s).
Proof.
  intros H1 H2. unfold put, bind.
  rewrite (connect_invalid s H1 H2).
  destruct (REDIS_ERR_generic ext) as [-> ->]. reflexivity.
Qed.

Lemma remove_invalid (key : Digest) (s : State) :
  m_connected (self s) = false -> m_invalid (self s) = true ->
  remove key s = (Returns (unexpected error), s).
Proof.
  intros H1 H2. unfold remove, bind.
  rewrite (connect_invalid s H1 H2).
  destruct (REDIS_ERR_generic ext) as [-> ->]. reflexivity.
Qed.

(** ** The reconnection branch is never taken *)

Lemma no_reconnect_app (l l' : list io_event) :
  no_reconnect l -> no_reconnect l' -> no_reconnect (l ++ l').
Proof.
  unfold no_reconnect. rewrite forallb_app. intros -> ->. reflexivity.
Qed.

Lemma reconnect_idle (s : State) :
  m_context (self s) = None -> reconnect s = (Returns false, s).
Proof. intros H. crunch. Qed.

Lemma connect_no_reconnect (s : State) :
  consistent (self s) ->
  no_reconnect (io s) -> no_reconnect (io (snd (connect s))).
Proof.
  intros [Hp Hc Hi] Hio. unfold connect, bind at 1, this.
  destruct (m_connected (self s)) eqn:E1; simpl; auto.
  destruct (m_invalid (self s)) eqn:E2; simpl; auto.
  unfold bind at 1. rewrite (reconnect_idle s) by auto.
  crunch; repeat (apply no_reconnect_app; auto); reflexivity.
Qed.


Lemma perform_no_reconnect (r : request) (s : State) :
  consistent (self s) ->
  no_reconnect (io s) -> no_reconnect (io (perform r s)).
Proof.
  intros Hs Hio. pose proof (connect_no_reconnect s Hs Hio) as H.
  destruct r; simpl; [unfold get | unfold put | unfold remove];
    unfold bind at 1;
    destruct (connect s) as [[err|what|] s1]; simpl in *; auto;
    destruct (is_timeout err); simpl; auto;
    destruct (is_error err); simpl; auto;
    crunch; repeat (apply no_reconnect_app; auto); reflexivity.
Qed.

Lemma reachable_no_reconnect (url : Url) (attributes : gmap string string)
    (s : State) :
  reachable url attributes s -> no_reconnect (io s).
Proof.
  induction 1; simpl; auto.
  - reflexivity.
  - eauto using perform_no_reconnect, reachable_consistent.
Qed.

End Facts.

(** ** Reply classification and error propagation *)

Section Operations.

Context {ext : Externals}.

Lemma is_timeout_ok : is_timeout REDIS_OK = false.
Proof. unfold is_timeout. destruct HAVE_REDIS_ERR_TIMEOUT; reflexivity. Qed.

(** What is left of a data operation once [connect] has returned
    [REDIS_OK]. *)
Lemma get_connected (key : Digest) (s s1 : State) :
  connect s = (Returns REDIS_OK, s1) ->
  get key s =
    bind (command ["GET"; c_str (get_key_string (self s1) key)])
      (fun reply => ret
         match reply with
         | None => unexpected error
         | Some r =>
             if type r =? REDIS_REPLY_ERROR then unexpected error
             else if type r =? REDIS_REPLY_STRING then value (Some (str r))
             else if type r =? REDIS_REPLY_NIL then value None
             else unexpected error
         end) s1.
Proof.
  intros H. unfold get, bind at 1. rewrite H, is_timeout_ok. simpl.
  unfold bind, this, ret. simpl.
  destruct (command _ s1) as [[[r|]|what|] s2]; simpl; auto.
  destruct (type r =? REDIS_REPLY_ERROR); auto.
  destruct (type r =? REDIS_REPLY_STRING); auto.
  destruct (type r =? REDIS_REPLY_NIL); auto.
Qed.

(** C5: once the connection stands, [get] turns a string-typed reply into
    the value's raw bytes, a nil-typed reply into the successful "absent"
    result, and everything else (no reply, an error-typed reply, a reply of
    any other type) into the generic [error]. *)
Theorem get_classifies_reply (key : Digest) (s s1 : State)
    (c : redisContext) :
  connect s = (Returns REDIS_OK, s1) ->
  m_context (self s1) = Some c ->
  fst (get key s) =
    Returns (get_as_specified
               (fst (redisCommand c
                       ["GET"; c_str (get_key_string (self s1) key)]
                       (world s1)))).
Proof.
  intros Hc Hctx. rewrite (get_connected key s s1 Hc).
  unfold bind. rewrite (command_sends _ s1 c Hctx). simpl.
  unfold get_as_specified.
  destruct (fst (redisCommand c _ (world s1))) as [r|]; auto.
  destruct (type r =? REDIS_REPLY_ERROR) eqn:E1;
    destruct (type r =? REDIS_REPLY_STRING) eqn:E2;
    destruct (type r =? REDIS_REPLY_NIL) eqn:E3; auto; decide_codes.
Qed.

(** A [timeout] result has no other source than the code [connect]
    returned. *)
Lemma timeout_only_from_connect (r : request) (s : State) :
  match r with
  | Get key => fst (get key s) = Returns (unexpected timeout)
  | Put key val only_if_missing =>
      fst (put key val only_if_missing s) = Returns (unexpected timeout)
  | Remove key => fst (remove key s) = Returns (unexpected timeout)
  end ->
  exists err, fst (connect s) = Returns err /\ is_timeout err = true.
Proof.
  destruct r; [unfold get | unfold put | unfold remove]; unfold bind at 1;
    destruct (connect s) as [[err|what|] s1]; simpl; try discriminate;
    destruct (is_timeout err) eqn:Et; eauto;
    destruct (is_error err); simpl; try discriminate;
    intros H; crunch.
Qed.


(** C8, as amended: once the connection stands, [remove] turns an integer
    reply above zero into [true], every other integer reply (zero, and also
    a negative one) into [false], and everything else (no reply, an
    error-typed reply, a reply of any other type) into the generic
    [error]. *)
Theorem remove_classifies_reply (key : Digest) (s s1 : State)
    (c : redisContext) :
  connect s = (Returns REDIS_OK, s1) ->
  m_context (self s1) = Some c ->
  fst (remove key s) =
    Returns (remove_classification
               (fst (redisCommand c
                       ["DEL"; c_str (get_key_string (self s1) key)]
                       (world s1)))).
Proof.
  intros Hc Hctx. unfold remove, bind at 1. rewrite Hc, is_timeout_ok. simpl.
  unfold bind at 1, this. simpl. unfold bind.
  rewrite (command_sends _ s1 c Hctx). simpl.
  unfold remove_classification.
  destruct (fst (redisCommand c _ (world s1))) as [r|]; auto.
  destruct (type r =? REDIS_REPLY_ERROR) eqn:E1;
    destruct (type r =? REDIS_REPLY_INTEGER) eqn:E2;
    destruct (0 <? integer r); auto; decide_codes.
Qed.

End Operations.

(** ** Writing and reading back *)

Section RoundTrip.

Context {ext : Externals}.

(** A successful unconditional [put] sent a [SET] that was answered with a
    status reply, on a connected object. *)
Lemma put_stored (key : Digest) (val : string) (s s' : State) :
  put key val false s = (Returns (value true), s') ->
  m_connected (self s') = true /\
  exists (c : redisContext) (w : World) (r : redisReply),
    m_context (self s') = Some c /\
    redisCommand c ["SET"; c_str (get_key_string (self s') key); val] w
      = (Some r, world s') /\
    type r = REDIS_REPLY_STATUS.
Proof.
  unfold put, bind at 1.
  destruct (connect s) as [[err|what|] s1] eqn:Hc; simpl; try discriminate.
  destruct (is_timeout err); simpl; try discriminate.
  destruct (is_error err) eqn:He; simpl; try discriminate.
  pose proof (connect_ok s s1 err Hc He) as Hconn. clear Hc.
  intros H. crunch.
  split; auto. eexists _, _, _. repeat split; eauto. decide_codes.
Qed.

(** C7: against a server that keeps what it acknowledges, whatever the key
    and whatever the bytes of the value (NUL and other non-text bytes
    included), a [get] that follows a successful [put(k, v, false)] returns
    exactly [v]. *)
Theorem put_get_round_trip (key : Digest) (val : string) (s : State) :
  server_keeps_values ->
  fst (put key val false s) = Returns (value true) ->
  fst (get key (snd (put key val false s))) = Returns (value (Some val)).
Proof.
  intros Hserver Hput.
  destruct (put key val false s) as [o s'] eqn:E. simpl in *. subst o.
  destruct (put_stored key val s s' E)
    as (Hconn & c & w & r & Hctx & Hset & Hr).
  destruct (Hserver c _ _ _ _ _ Hset Hr) as (r' & Hget & Ht & Hv).
  rewrite (get_connected key s' s' (connect_connected s' Hconn)).
  unfold bind. rewrite (command_sends _ s' c Hctx). simpl.
  rewrite Hget. unfold ret. simpl. rewrite Ht, Hv. reflexivity.
Qed.

(** ** Namespaced keys *)

(** C9: for every digest, on every object the constructor built and at
    every point of its life, [get_key_string] is ["ccache:"] followed by the
    digest's text; being a function of the object and the digest alone, it
    has no effect and cannot fail. *)
Theorem get_key_string_prefixed (url : Url) (attributes : gmap string string)
    (s : State) (digest : Digest) :
  reachable url attributes s ->
  get_key_string (self s) digest = "ccache:" ++ Digest_to_string digest.
Proof.
  intros H. unfold get_key_string.
  rewrite (consistent_prefix _ (reachable_consistent _ _ _ H)). reflexivity.
Qed.

(** ** What a request leaves of the object *)

(** C10, as amended: [get], [put] and [remove] leave the object exactly as
    their own [connect] step left it, whatever the command's reply (none, or
    an error-typed one, too), and leave the prefix, the timeouts and the
    credentials as they were before the call. *)
Theorem request_keeps_connect_state (r : request) (s : State) :
  self (perform r s) = self (snd (connect s)) /\
  m_prefix (self (perform r s)) = m_prefix (self s) /\
  m_connect_timeout (self (perform r s)) = m_connect_timeout (self s) /\
  m_operation_timeout (self (perform r s)) = m_operation_timeout (self s) /\
  m_username (self (perform r s)) = m_username (self s) /\
  m_password (self (perform r s)) = m_password (self s).
Proof.
  split; [apply perform_self|].
  destruct (perform_extends r s); auto.
Qed.

(** On a connected object a request changes no member variable at all. *)
Lemma request_when_connected (r : request) (s : State) :
  m_connected (self s) = true -> self (perform r s) = self s.
Proof.
  intros H. rewrite perform_self, (connect_connected s H). reflexivity.
Qed.

(** ** The existence check of a conditional [put] *)

(** With the check answered by an integer that is positive as an [int],
    nothing is written. *)
Lemma put_key_present (key : Digest) (val : string) (s s1 : State)
    (c : redisContext) (r : redisReply) (w : World) :
  connect s = (Returns REDIS_OK, s1) ->
  m_context (self s1) = Some c ->
  redisCommand c ["EXISTS"; c_str (get_key_string (self s1) key)] (world s1)
    = (Some r, w) ->
  type r = REDIS_REPLY_INTEGER ->
  0 < to_int (integer r) ->
  put key val true s =
    (Returns (value false),
     {| self := self s1; world := w;
        io := io s1 ++
              [IoCommand c ["EXISTS"; c_str (get_key_string (self s1) key)]] |}).
Proof.
  intros Hc Hctx Hex Ht Hpos. unfold put, bind at 1.
  rewrite Hc, is_timeout_ok. simpl.
  clear Hc. crunch.
Qed.

(** With no usable answer to the check, the [SET] is sent. *)
Lemma put_check_fails_open (key : Digest) (val : string) (s s1 : State)
    (c : redisContext) :
  connect s = (Returns REDIS_OK, s1) ->
  m_context (self s1) = Some c ->
  let key_string := c_str (get_key_string (self s1) key) in
  match fst (redisCommand c ["EXISTS"; key_string] (world s1)) with
  | None => True
  | Some r => type r <> REDIS_REPLY_INTEGER
  end ->
  io (snd (put key val true s)) =
    (io s1 ++ [IoCommand c ["EXISTS"; key_string];
               IoCommand c ["SET"; key_string; val]])%list.
Proof.
  intros Hc Hctx key_string Hr. subst key_string. unfold put, bind at 1.
  rewrite Hc, is_timeout_ok. simpl.
  clear Hc. crunch; rewrite <- app_assoc; reflexivity.
Qed.

(** ** The reconnection branch of [connect] *)

(** Entered with a handle and neither flag set, [connect] calls
    [redisReconnect]; when that succeeds the object is connected and
    [connect] returns [REDIS_OK]. *)
Lemma connect_reconnects (s : State) (c : redisContext) (w : World) :
  m_connected (self s) = false -> m_invalid (self s) = false ->
  m_context (self s) = Some c ->
  redisReconnect c (world s) = (REDIS_OK, w) ->
  connect s =
    (Returns REDIS_OK,
     {| self := with_connected true (self s); world := w;
        io := io s ++ [IoReconnect c] |}).
Proof. intros H1 H2 H3 H4. crunch. Qed.

(** When [redisReconnect] fails the handle is freed and forgotten, and
    [connect] goes on as it does without a handle. *)
Lemma connect_reconnect_fails (s : State) (c : redisContext) (w : World)
    (r : Z) :
  m_connected (self s) = false -> m_invalid (self s) = false ->
  m_context (self s) = Some c ->
  redisReconnect c (world s) = (r, w) -> r <> REDIS_OK ->
  connect s =
    connect {| self := with_context None (self s); world := redisFree c w;
               io := io s ++ [IoReconnect c; IoFree c] |}.
Proof.
  intros H1 H2 H3 H4 H5. apply Z.eqb_neq in H5.
  unfold connect at 1, bind at 1, this. rewrite H1, H2.
  unfold bind at 1, reconnect, bind at 1, this. rewrite H3.
  unfold bind at 1, call. rewrite H4, H5.
  unfold bind, modify, ret, call. simpl.
  unfold connect, bind at 1, this. simpl. rewrite H1, H2.
  unfold bind at 1, reconnect, bind at 1, this. simpl.
  unfold bind at 1, ret. rewrite <- app_assoc. reflexivity.
Qed.

End RoundTrip.

(** ** Runs against the scripted transport *)

Section ScriptedRuns.

#[local] Existing Instance Scripted.externals.

Import Scripted.

Lemma new_object_built (attributes : gmap string string) :
  attributes !! "connect-timeout" = None ->
  attributes !! "operation-timeout" = None ->
  RedisStorage_new url attributes = Returns (new_object attributes).
Proof.
  intros H1 H2. unfold RedisStorage_new, parse_timeout_attribute.
  rewrite H1, H2. reflexivity.
Qed.

(** Outside the codes [connect] returns: with a port the URL carries but
    [Util::parse_unsigned] refuses, [connect] throws, and so does [get]. *)
Lemma refused_port_throws :
  fst (get "d"
         {| self := with_url_port "0" (new_object ∅);
            world := replying status_ok; io := [] |}) = Throws "port".
Proof. vm_compute. reflexivity. Qed.

(** C1, where the code departs from it: the server rejects the password,
    the first [get] fails and leaves [m_invalid] set; the second [get] does
    not fail at once but sends a [GET] over the connection and returns what
    the server answers. *)
Theorem invalid_object_still_sends :
  let s0 := start with_password rejecting in
  let s1 := snd (get "d" s0) in
  RedisStorage_new url with_password = Returns (self s0) /\
  fst (get "d" s0) = Returns (unexpected error) /\
  m_invalid (self s1) = true /\
  fst (get "d" s1) = Returns (value (Some "blob")) /\
  io (snd (get "d" s1)) = (io s1 ++ [IoCommand 0%nat ["GET"; "ccache:d"]])%list.
Proof. intros. repeat split; vm_compute; reflexivity. Qed.

(** C2, where the code departs from it: [connect] returns [REDIS_ERR] when
    the [AUTH] command is answered with an error and [m_invalid] is set, but
    the [put] and the [remove] that follow are sent and succeed. *)
Theorem requests_succeed_after_failed_auth :
  let s0 := start with_password rejecting_writes in
  let s1 := snd (connect s0) in
  let s2 := snd (put "d" "v" false s1) in
  fst (connect s0) = Returns REDIS_ERR /\
  m_invalid (self s1) = true /\
  m_connected (self s1) = true /\
  fst (put "d" "v" false s1) = Returns (value true) /\
  fst (remove "d" s2) = Returns (value true).
Proof. intros. repeat split; vm_compute; reflexivity. Qed.

(** C3, where the code departs from it: the link drops under a connected
    object (a command gets no reply and the handle's [err] is set); the next
    [get] neither reconnects nor connects again, it sends its command over
    the dead handle and fails, and the object still counts as connected. *)
Theorem dropped_link_is_not_reconnected :
  let s0 := start ∅ dropping in
  let s1 := snd (get "d" s0) in
  let s2 := snd (get "d" s1) in
  let s3 := snd (get "d" s2) in
  fst (get "d" s0) = Returns (value (Some "blob")) /\
  fst (get "d" s1) = Returns (unexpected error) /\
  context_err 0%nat (world s2) = REDIS_ERR_EOF /\
  fst (get "d" s2) = Returns (unexpected error) /\
  io s3 = (io s2 ++ [IoCommand 0%nat ["GET"; "ccache:d"]])%list /\
  m_connected (self s3) = true /\
  connects (world s3) = [Some 0] /\ reconnects (world s3) = [REDIS_OK].
Proof. intros. repeat split; vm_compute; reflexivity. Qed.

(** C4, where the code departs from it: the existence check is answered
    with the integer 2^32, which is positive; [count], an [int], receives 0,
    and the value is written over the key. *)
Theorem wide_count_is_overwritten :
  let s0 := start ∅ counting_wide in
  fst (put "d" "new" true s0) = Returns (value true) /\
  io (snd (put "d" "new" true s0)) =
    [IoConnect "cache.example.org" 6379 {| tv_sec := 0; tv_usec := 100000 |};
     IoSetTimeout 0%nat {| tv_sec := 10; tv_usec := 0 |};
     IoCommand 0%nat ["EXISTS"; "ccache:d"];
     IoCommand 0%nat ["SET"; "ccache:d"; "new"]].
Proof. intros. repeat split; vm_compute; reflexivity. Qed.

Lemma get_classifies_reply_witness :
  fst (get "d" (start ∅ (replying (string_reply "blob")))) =
    Returns (get_as_specified (Some (string_reply "blob"))).
Proof.
  exact (get_classifies_reply "d" (start ∅ (replying (string_reply "blob")))
           (snd (connect (start ∅ (replying (string_reply "blob")))))
           0%nat eq_refl eq_refl).
Defined.



(** C8, as the specification words it, fails: a negative integer reply is
    neither above zero nor zero, and [remove] returns [false] for it, not
    [error]. *)
Lemma remove_negative_reply_is_missing :
  ~ removal_classified_by remove_as_specified.
Proof.
  intros H.
  specialize (H externals "d" (start ∅ (replying (integer_reply (-1))))
                (snd (connect (start ∅ (replying (integer_reply (-1))))))
                0%nat eq_refl eq_refl).
  vm_compute in H. discriminate H.
Qed.

Lemma remove_classifies_reply_witness :
  fst (remove "d" (start ∅ (replying (integer_reply (-1))))) =
    Returns (remove_classification (Some (integer_reply (-1)))).
Proof.
  exact (remove_classifies_reply "d"
           (start ∅ (replying (integer_reply (-1))))
           (snd (connect (start ∅ (replying (integer_reply (-1))))))
           0%nat eq_refl eq_refl).
Defined.

Lemma get_key_string_prefixed_witness :
  get_key_string
    (self (perform (Get "d") (start ∅ (replying (string_reply "blob")))))
    "d" = "ccache:d".
Proof.
  change (get_key_string
    (self (perform (Get "d") (start ∅ (replying (string_reply "blob")))))
    "d" = "ccache:" ++ Digest_to_string "d").
  apply (get_key_string_prefixed url ∅).
  apply reachable_request.
  apply (reachable_new url ∅ (new_object ∅)).
  reflexivity.
Defined.

(** C10, as the specification words it, fails: the first [get] on a new
    object connects, and [m_connected] is set after the call though it was
    not before. *)
Lemma first_request_sets_connected : ~ requests_keep_flags.
Proof.
  intros H.
  destruct (H externals (@Get externals "d")
              (start ∅ (replying (string_reply "blob")))) as [H1 _].
  vm_compute in H1. discriminate H1.
Qed.

End ScriptedRuns.

(** ** Runs against the reference server *)

Section ReferenceRuns.

#[local] Existing Instance Reference.externals.

Import Reference.

Lemma reference_keeps_values : server_keeps_values.
Proof.
  intros c k v w w' r H Hr. simpl in *. unfold serve in *.
  destruct (c <? opened w)%nat eqn:E; simplify_eq/=.
  rewrite E. simpl. rewrite lookup_insert_eq. simpl.
  eexists. repeat split.
Qed.

Lemma put_get_round_trip_witness :
  fst (get "d" (snd (put "d" blob false start))) = Returns (value (Some blob)).
Proof.
  apply (@put_get_round_trip externals "d" blob start reference_keeps_values).
  vm_compute. reflexivity.
Defined.

End ReferenceRuns.

(** ** Timeouts and the constructor *)

Section Construction.

Context {ext : Externals}.

(** X1: for a number of milliseconds that is not negative,
    [milliseconds_to_timeval] loses nothing: the seconds and microseconds
    add up to the milliseconds, and the microseconds stay below one
    second. *)
Theorem milliseconds_to_timeval_exact (ms : Z) :
  0 <= ms ->
  0 <= tv_sec (milliseconds_to_timeval ms) /\
  0 <= tv_usec (milliseconds_to_timeval ms) < 1000000 /\
  tv_sec (milliseconds_to_timeval ms) * 1000000
    + tv_usec (milliseconds_to_timeval ms) = ms * 1000.
Proof.
  intros H. unfold milliseconds_to_timeval. simpl.
  pose proof (Z.mod_pos_bound ms 1000 ltac:(lia)) as Hm.
  pose proof (Z.div_mod ms 1000 ltac:(lia)) as Hd.
  assert (0 <= ms / 1000) by (apply Z.div_pos; lia).
  repeat split; lia.
Qed.

Lemma parse_timeout_attribute_throws (attributes : gmap string string)
    (name : string) (default_value : Z) :
  (exists what,
     parse_timeout_attribute attributes name default_value = Throws what) <->
  refused attributes name.
Proof.
  unfold parse_timeout_attribute, refused. split.
  - intros [what H]. destruct (attributes !! name) as [text|]; [|discriminate].
    exists text. split; auto.
    destruct (parse_unsigned text 1 (1000 * 3600) "timeout"); [discriminate|auto].
  - intros (text & -> & ->). eauto.
Qed.

Lemma parse_timeout_attribute_no_abort (attributes : gmap string string)
    (name : string) (default_value : Z) :
  parse_timeout_attribute attributes name default_value <> Aborts.
Proof.
  unfold parse_timeout_attribute.
  repeat (break_match; try discriminate).
Qed.

(** X2: the constructor throws exactly when [connect-timeout] or
    [operation-timeout] is present with a value [Util::parse_unsigned]
    refuses; the URL, [username] and [password] never make it fail, and it
    never aborts. *)
Theorem constructor_throws_iff (url : Url) (attributes : gmap string string) :
  ((exists what, RedisStorage_new url attributes = Throws what) <->
   refused attributes "connect-timeout" \/
   refused attributes "operation-timeout") /\
  RedisStorage_new url attributes <> Aborts.
Proof.
  pose proof (parse_timeout_attribute_throws attributes "connect-timeout"
                DEFAULT_CONNECT_TIMEOUT_MS) as H1.
  pose proof (parse_timeout_attribute_throws attributes "operation-timeout"
                DEFAULT_OPERATION_TIMEOUT_MS) as H2.
  pose proof (parse_timeout_attribute_no_abort attributes "connect-timeout"
                DEFAULT_CONNECT_TIMEOUT_MS) as A1.
  pose proof (parse_timeout_attribute_no_abort attributes "operation-timeout"
                DEFAULT_OPERATION_TIMEOUT_MS) as A2.
  unfold RedisStorage_new.
  destruct (parse_timeout_attribute attributes "connect-timeout" _)
    as [ct|w1|];
    destruct (parse_timeout_attribute attributes "operation-timeout" _)
    as [ot|w2|]; try congruence.
  all: split; [|discriminate].
  all: split; [intros [what H]|intros [H|H]]; try discriminate.
  all: try (apply H1 in H; destruct H; discriminate).
  all: try (apply H2 in H; destruct H; discriminate).
  all: try solve [right; apply H2; eauto]; try solve [left; apply H1; eauto];
    eauto.
Qed.

Lemma new_timeouts (url : Url) (attributes : gmap string string)
    (o : RedisStorage) :
  parse_unsigned_bounded ->
  RedisStorage_new url attributes = Returns o ->
  1 <= m_connect_timeout o <= 3600000 /\
  1 <= m_operation_timeout o <= 3600000.
Proof.
  intros Hb. unfold RedisStorage_new, parse_timeout_attribute.
  intros H.
  repeat (break_match; simplify_eq/=);
    repeat match goal with
    | H : parse_unsigned _ _ _ _ = Some _ |- _ => apply Hb in H
    end;
    unfold DEFAULT_CONNECT_TIMEOUT_MS, DEFAULT_OPERATION_TIMEOUT_MS; lia.
Qed.

Lemma reachable_extends_new (url : Url) (attributes : gmap string string)
    (s : State) :
  reachable url attributes s ->
  exists o, RedisStorage_new url attributes = Returns o /\
            extends o (self s).
Proof.
  induction 1 as [o w H|s r H (o & Ho & He)|s w H (o & Ho & He)]; simpl.
  - eauto using extends_refl.
  - eauto using extends_trans, perform_extends.
  - eauto.
Qed.

(** X3: when [Util::parse_unsigned] keeps within its bounds, both timeouts
    of an object lie between 1 ms and one hour at every point of its life,
    and the connect timeout handed to hiredis is at most 3600 seconds. *)
Theorem timeouts_bounded (url : Url) (attributes : gmap string string)
    (s : State) :
  parse_unsigned_bounded ->
  reachable url attributes s ->
  1 <= m_connect_timeout (self s) <= 3600000 /\
  1 <= m_operation_timeout (self s) <= 3600000 /\
  0 <= tv_sec (milliseconds_to_timeval (m_connect_timeout (self s))) <= 3600.
Proof.
  intros Hb Hr.
  destruct (reachable_extends_new url attributes s Hr) as (o & Ho & He).
  destruct (new_timeouts url attributes o Hb Ho) as [H1 H2].
  rewrite (extends_connect_timeout _ _ He), (extends_operation_timeout _ _ He).
  repeat split; try lia; simpl.
  - apply Z.div_pos; lia.
  - apply Z.div_le_upper_bound; lia.
Qed.

End Construction.

(** ** One connection in a life *)

Section Life.

Context {ext : Externals}.

(** A property that [connect] and [command] keep is kept by every
    request. *)
Lemma perform_preserves (P : State -> Prop) :
  (forall s, P s -> P (snd (connect s))) ->
  (forall argv s, P s -> P (snd (command argv s))) ->
  forall r s, P s -> P (perform r s).
Proof.
  intros Hconnect Hcommand r s HP.
  pose proof (Hconnect s HP) as H1.
  destruct r as [key|key val only_if_missing|key]; simpl;
    [unfold get | unfold put | unfold remove]; unfold bind at 1;
    destruct (connect s) as [[err|what|] s1]; simpl in *; auto;
    destruct (is_timeout err); simpl; auto;
    destruct (is_error err); simpl; auto;
    unfold bind at 1, this; simpl.
  - unfold bind.
    pose proof (Hcommand ["GET"; c_str (get_key_string (self s1) key)] s1 H1).
    destruct (command _ s1) as [[reply|what|] s2]; simpl in *; auto.
    repeat (break_match; simpl; auto).
  - destruct only_if_missing.
    + unfold bind at 1, bind at 1.
      pose proof (Hcommand ["EXISTS"; c_str (get_key_string (self s1) key)]
                    s1 H1) as H2.
      destruct (command _ s1) as [[reply|what|] s2]; simpl in *; auto.
      unfold ret at 1.
      destruct (0 <? _); simpl; auto.
      unfold bind.
      pose proof (Hcommand
                    ["SET"; c_str (get_key_string (self s1) key); val]
                    s2 H2).
      destruct (command _ s2) as [[reply'|what|] s3]; simpl in *; auto.
      repeat (break_match; simpl; auto).
    + unfold bind at 1, ret at 1. unfold bind.
      pose proof (Hcommand
                    ["SET"; c_str (get_key_string (self s1) key); val]
                    s1 H1).
      destruct (command _ s1) as [[reply'|what|] s3]; simpl in *; auto.
      repeat (break_match; simpl; auto).
  - unfold bind.
    pose proof (Hcommand ["DEL"; c_str (get_key_string (self s1) key)] s1 H1).
    destruct (command _ s1) as [[reply|what|] s2]; simpl in *; auto.
    repeat (break_match; simpl; auto).
Qed.

Lemma connect_single_connection (s : State) :
  consistent (self s) /\ single_connection s ->
  consistent (self (snd (connect s))) /\ single_connection (snd (connect s)).
Proof.
  intros [Hc Hs]. split; [apply connect_consistent; auto|].
  unfold single_connection in *. destruct s as [o w l]. simpl in *.
  destruct l as [|ev rest].
  - destruct Hs as [H1 H2]. clear Hc.
    crunch; repeat split; auto; repeat constructor; eauto.
  - destruct Hs as (H1 & H2 & H3).
    destruct (m_connected o) eqn:E.
    + rewrite (connect_connected {| self := o; world := w; io := ev :: rest |})
        by auto.
      simpl. rewrite E. auto.
    + destruct H3 as [H3|H3]; [discriminate|].
      rewrite (connect_invalid {| self := o; world := w; io := ev :: rest |})
        by auto.
      simpl. auto.
Qed.

Lemma command_single_connection (argv : list string) (s : State) :
  consistent (self s) /\ single_connection s ->
  consistent (self (snd (command argv s))) /\
  single_connection (snd (command argv s)).
Proof.
  intros [Hc Hs]. split; [rewrite command_self; auto|].
  unfold single_connection in *. destruct s as [o w l]. simpl in *.
  destruct l as [|ev rest].
  - destruct Hs as [H1 H2]. rewrite command_null by auto. simpl. auto.
  - destruct Hs as (H1 & H2 & H3).
    destruct (m_context o) as [c|] eqn:E.
    + rewrite (command_sends argv _ c) by auto. simpl. rewrite E.
      split; [auto|]. split; [|auto].
      apply Forall_app. split; [auto|].
      constructor; [eauto|constructor].
    + rewrite command_null by auto. simpl. rewrite E. auto.
Qed.

Lemma reachable_single_connection (url : Url)
    (attributes : gmap string string) (s : State) :
  reachable url attributes s -> single_connection s.
Proof.
  intros H.
  cut (consistent (self s) /\ single_connection s); [tauto|].
  induction H as [o w H|s r H IH|s w H IH].
  - split; [eauto using new_consistent|].
    unfold RedisStorage_new in H.
    repeat (break_match; simplify_eq/=). split; reflexivity.
  - apply perform_preserves; auto using connect_single_connection.
    intros argv s0. apply command_single_connection.
  - exact IH.
Qed.

End Life.

(** ** The handle, from the connection attempt to the destructor *)

Section Handle.

Context {ext : Externals}.

Lemma single_connection_uses (s : State) :
  single_connection s ->
  List.filter is_free (io s) = [] /\
  (length (List.filter is_connect (io s)) <= 1)%nat.
Proof.
  unfold single_connection. destruct (io s) as [|ev rest]; simpl; auto.
  intros (H1 & H2 & _). rewrite H1.
  assert (is_free ev = false) as -> by (destruct ev; auto; discriminate).
  induction H2 as [|e rest (c & Hc & _) _ IH]; simpl in *; [auto|].
  destruct e; try discriminate; simpl; auto.
Qed.

(** X4: on every object the constructor built, wherever it is in its life,
    the handle is released by the destructor and by nothing before it: after
    the destructor the trace holds one [redisFree], of the handle the object
    held, or none when it held none; no handle is left, and running the
    destructor's body again releases nothing. *)
Theorem handle_freed_once (url : Url) (attributes : gmap string string)
    (s : State) :
  reachable url attributes s ->
  List.filter is_free (io (snd (RedisStorage_delete s))) =
    match m_context (self s) with
    | Some c => [IoFree c]
    | None => []
    end /\
  m_context (self (snd (RedisStorage_delete s))) = None /\
  RedisStorage_delete (snd (RedisStorage_delete s)) =
    (Returns tt, snd (RedisStorage_delete s)).
Proof.
  intros H.
  destruct (single_connection_uses s (reachable_single_connection _ _ _ H))
    as [Hfree _].
  unfold RedisStorage_delete, bind, this, call, modify, ret. simpl.
  destruct (m_context (self s)) as [c|] eqn:E; simpl.
  - rewrite List.filter_app, Hfree. simpl. auto.
  - rewrite E, Hfree. auto.
Qed.

(** X5: an object makes at most one connection attempt in its life: a
    failed attempt is never repeated and a connection that stands is never
    opened again. *)
Theorem connects_at_most_once (url : Url) (attributes : gmap string string)
    (s : State) :
  reachable url attributes s ->
  (length (List.filter is_connect (io s)) <= 1)%nat.
Proof.
  intros H.
  apply (single_connection_uses s (reachable_single_connection _ _ _ H)).
Qed.

(** X6: no command is sent before the connection attempt, and every command
    and every [redisSetTimeout] of an object's life went over the one handle
    the object still holds. *)
Theorem calls_use_held_handle (url : Url) (attributes : gmap string string)
    (s : State) (ev : io_event) (c : redisContext) :
  reachable url attributes s ->
  In ev (io s) ->
  used_handle ev = Some c ->
  m_context (self s) = Some c /\
  exists first rest, io s = first :: rest /\ is_connect first = true.
Proof.
  intros H Hin Hev.
  pose proof (reachable_single_connection _ _ _ H) as Hs.
  unfold single_connection in Hs.
  destruct (io s) as [|first rest]; [destruct Hin|].
  destruct Hs as (H1 & H2 & _). split; [|eauto].
  destruct Hin as [->|Hin].
  - destruct ev; discriminate.
  - rewrite List.Forall_forall in H2.
    destruct (H2 ev Hin) as (c' & Hc' & Hctx). congruence.
Qed.

(** X7: whatever code [connect] returns, if it is not [REDIS_OK] the object
    is invalid afterwards: there is no failure of [connect] that a later
    call would try again. *)
Theorem failed_connect_is_final (s s1 : State) (err : Z) :
  connect s = (Returns err, s1) ->
  is_error err = true ->
  m_invalid (self s1) = true.
Proof.
  intros H He. unfold is_error in He. apply negb_true_iff in He.
  crunch.
Qed.

Lemma perform_invalid (r : request) (s : State) :
  m_connected (self s) = false -> m_invalid (self s) = true ->
  perform r s = s /\ fails_with error r s.
Proof.
  intros H1 H2.
  destruct r; simpl;
    rewrite ?get_invalid, ?put_invalid, ?remove_invalid by auto; auto.
Qed.

Lemma perform_all_invalid (rs : list request) (s : State) :
  m_connected (self s) = false -> m_invalid (self s) = true ->
  perform_all rs s = s /\ Forall (fun r => fails_with error r s) rs.
Proof.
  intros H1 H2. unfold perform_all.
  induction rs as [|r rs IH]; simpl; [auto|].
  destruct (perform_invalid r s H1 H2) as [-> Hr].
  destruct IH as [-> IH]. auto.
Qed.

(** X8: with a URL that has neither host nor path, the first request marks
    the object invalid and returns [error] without any call to hiredis, and
    so does every request after it, whatever they are and however many:
    nothing is ever sent. *)
Theorem malformed_url_is_terminal (r : request) (rs : list request)
    (s : State) :
  m_connected (self s) = false -> m_invalid (self s) = false ->
  m_context (self s) = None ->
  scheme (m_url (self s)) = "redis" ->
  host (m_url (self s)) = "" -> path (m_url (self s)) = "" ->
  fails_with error r s /\
  m_invalid (self (perform r s)) = true /\
  io (perform r s) = io s /\
  world (perform r s) = world s /\
  perform_all rs (perform r s) = perform r s /\
  Forall (fun r' => fails_with error r' (perform r s)) rs.
Proof.
  intros H1 H2 H3 H4 H5 H6.
  assert (connect s =
            (Returns REDIS_ERR,
             {| self := with_invalid true (self s);
                world := world s; io := io s |})) as Hc.
  { unfold connect, bind at 1, this. rewrite H1, H2.
    unfold bind at 1. rewrite (reconnect_idle s H3).
    unfold bind at 1, this. rewrite H4. simpl.
    unfold open_context, bind, this, modify, ret. rewrite H5, H6.
    reflexivity. }
  destruct (REDIS_ERR_generic ext) as [Ht He].
  assert (perform r s =
            {| self := with_invalid true (self s);
               world := world s; io := io s |} /\ fails_with error r s)
    as [Hp Hf].
  { destruct r; simpl; [unfold get|unfold put|unfold remove];
      unfold bind; rewrite Hc, Ht, He; auto. }
  rewrite Hp. simpl. repeat split; auto.
  all: apply perform_all_invalid; auto.
Qed.

End Handle.

(** ** Opening the connection *)

Section Opening.

Context {ext : Externals}.

(** X9: on a new object whose URL has a host and no port, [connect] calls
    [redisConnectWithTimeout] for port 6379 with the connect timeout; when
    the handle comes back without error and no password is set, the object
    is connected and [REDIS_OK] is returned, whether [redisSetTimeout]
    succeeded or not. *)
Theorem connect_opens_tcp (s : State) (c : redisContext) (w : World) :
  m_connected (self s) = false -> m_invalid (self s) = false ->
  m_context (self s) = None ->
  scheme (m_url (self s)) = "redis" ->
  host (m_url (self s)) <> "" -> port (m_url (self s)) = "" ->
  m_password (self s) = None ->
  redisConnectWithTimeout (c_str (host (m_url (self s)))) 6379
    (milliseconds_to_timeval (m_connect_timeout (self s))) (world s)
    = (Some c, w) ->
  context_err c w = 0 ->
  connect s =
    (Returns REDIS_OK,
     {| self := with_connected true (with_context (Some c) (self s));
        world := snd (redisSetTimeout c
                        (milliseconds_to_timeval (m_operation_timeout (self s)))
                        w);
        io := io s ++
              [IoConnect (c_str (host (m_url (self s)))) 6379
                 (milliseconds_to_timeval (m_connect_timeout (self s)));
               IoSetTimeout c
                 (milliseconds_to_timeval (m_operation_timeout (self s)))] |}).
Proof.
  intros H1 H2 H3 H4 H5 H6 H7 H8 H9.
  apply String.eqb_neq in H5.
  unfold connect, bind at 1, this. rewrite H1, H2.
  unfold bind at 1. rewrite (reconnect_idle s H3).
  unfold bind at 1, this. rewrite H4. simpl.
  unfold open_context, is_empty, bind, this, modify, ret, call, peek, auth,
    DEFAULT_PORT.
  simpl. rewrite H5, H6. simpl. rewrite H8. simpl. rewrite H9. simpl.
  destruct (redisSetTimeout c _ w) as [code w']. simpl.
  unfold bind, this. simpl. rewrite H7. simpl.
  rewrite <- app_assoc. reflexivity.
Qed.

(** X10: whatever the connection attempt is (a host with the default port
    or with the port of the URL, or a local socket): when it gives no
    handle, [connect] returns [REDIS_ERR]; when it gives a handle with its
    [err] field set, [connect] returns that very code and keeps the handle;
    either way the object is invalid, and neither [redisSetTimeout] nor
    [AUTH] is sent. *)
Theorem connect_attempt_fails (s : State) (ev : io_event)
    (f : World -> option redisContext * World)
    (oc : option redisContext) (w : World) :
  m_connected (self s) = false -> m_invalid (self s) = false ->
  m_context (self s) = None ->
  scheme (m_url (self s)) = "redis" ->
  attempt (self s) ev f ->
  f (world s) = (oc, w) ->
  match oc with
  | Some c => context_err c w <> 0
  | None => True
  end ->
  connect s =
    (Returns match oc with
             | Some c => context_err c w
             | None => REDIS_ERR
             end,
     {| self := with_invalid true (with_context oc (self s));
        world := w;
        io := io s ++ [ev] |}).
Proof.
  intros H1 H2 H3 H4 Ha H8 H9.
  unfold connect, bind at 1, this. rewrite H1, H2.
  unfold bind at 1. rewrite (reconnect_idle s H3).
  unfold bind at 1, this. rewrite H4. simpl.
  unfold open_context, is_empty, bind, this, modify, ret, call, peek.
  simpl.
  destruct Ha as [Hh Hp|v Hh Hp Hv|Hh Hp].
  - apply String.eqb_neq in Hh. rewrite Hh, Hp. simpl. rewrite H8. simpl.
    destruct oc as [c|]; simpl; [|reflexivity].
    apply Z.eqb_neq in H9. rewrite H9. reflexivity.
  - apply String.eqb_neq in Hh. apply String.eqb_neq in Hp.
    rewrite Hh, Hp, Hv. simpl. rewrite H8. simpl.
    destruct oc as [c|]; simpl; [|reflexivity].
    apply Z.eqb_neq in H9. rewrite H9. reflexivity.
  - apply String.eqb_neq in Hp. rewrite Hh, Hp. simpl. rewrite H8. simpl.
    destruct oc as [c|]; simpl; [|reflexivity].
    apply Z.eqb_neq in H9. rewrite H9. reflexivity.
Qed.

(** X11: on a new object whose URL has no host but a path, the first thing
    [connect] does is call [redisConnectUnixWithTimeout] with that path and
    the connect timeout. *)
Theorem connect_opens_unix_without_host (s : State) :
  m_connected (self s) = false -> m_invalid (self s) = false ->
  m_context (self s) = None ->
  scheme (m_url (self s)) = "redis" ->
  host (m_url (self s)) = "" -> path (m_url (self s)) <> "" ->
  exists rest,
    io (snd (connect s)) =
      (io s ++
       IoConnectUnix (c_str (path (m_url (self s))))
         (milliseconds_to_timeval (m_connect_timeout (self s))) :: rest)%list.
Proof.
  intros H1 H2 H3 H4 H5 H6.
  apply String.eqb_neq in H6.
  unfold connect, bind at 1, this. rewrite H1, H2.
  unfold bind at 1. rewrite (reconnect_idle s H3).
  unfold bind at 1, this. rewrite H4. simpl.
  unfold bind at 1, open_context, is_empty, bind at 1, this.
  rewrite H5, H6. simpl.
  clear H1 H2 H3 H4 H5 H6.
  crunch; rewrite <- ?app_assoc; simpl; eauto.
Qed.

(** X12: a port that [Util::parse_unsigned] refuses makes [connect] throw
    before anything is sent, and leaves the object as it was: neither
    connected nor invalid, so that the next call throws again. *)
Theorem connect_refused_port (s : State) :
  m_connected (self s) = false -> m_invalid (self s) = false ->
  m_context (self s) = None ->
  scheme (m_url (self s)) = "redis" ->
  host (m_url (self s)) <> "" -> port (m_url (self s)) <> "" ->
  parse_unsigned (port (m_url (self s))) 1 65535 "port" = None ->
  connect s = (Throws "port", s).
Proof.
  intros H1 H2 H3 H4 H5 H6 H7.
  apply String.eqb_neq in H5. apply String.eqb_neq in H6.
  unfold connect, bind at 1, this. rewrite H1, H2.
  unfold bind at 1. rewrite (reconnect_idle s H3).
  unfold bind at 1, this. rewrite H4. simpl.
  unfold open_context, is_empty, bind, this, throw.
  rewrite H5, H6, H7. reflexivity.
Qed.

(** X13: [auth] with a password sends one [AUTH] command and nothing else:
    user name and password when a user name is set, the password alone when
    none is; it returns [REDIS_OK] for every reply that is not error-typed,
    and [REDIS_ERR] with the object marked invalid otherwise. *)
Theorem auth_sends_credentials (s : State) (c : redisContext)
    (password : string) :
  m_password (self s) = Some password ->
  m_context (self s) = Some c ->
  m_invalid (self s) = false ->
  let argv :=
    match m_username (self s) with
    | Some username => ["AUTH"; c_str username; c_str password]
    | None => ["AUTH"; c_str password]
    end in
  let accepted :=
    match fst (redisCommand c argv (world s)) with
    | Some r => negb (type r =? REDIS_REPLY_ERROR)
    | None => false
    end in
  auth s =
    (Returns (if accepted then REDIS_OK else REDIS_ERR),
     {| self := with_invalid (negb accepted) (self s);
        world := snd (redisCommand c argv (world s));
        io := io s ++ [IoCommand c argv] |}).
Proof.
  intros Hp Hc Hi argv accepted. subst argv accepted.
  destruct s as [o w l]. simpl in *.
  assert (with_invalid false o = o) as Hid
    by (destruct o; unfold with_invalid; simpl in *; congruence).
  crunch; rewrite ?Hid; auto.
Qed.

End Opening.

(** ** Requests, from outside *)

Section Requests.

Context {ext : Externals}.

(** X14: built against hiredis headers that do not define
    [REDIS_ERR_TIMEOUT], no request ever returns [timeout]: every failure
    of [connect] comes back as [error]. *)
Theorem no_timeout_without_macro (r : request) (s : State) :
  HAVE_REDIS_ERR_TIMEOUT = false ->
  ~ fails_with timeout r s.
Proof.
  intros H Hf.
  destruct (timeout_only_from_connect r s) as (err & _ & Ht).
  - destruct r; exact Hf.
  - unfold is_timeout in Ht. rewrite H in Ht. discriminate.
Qed.

Lemma reachable_url (url : Url) (attributes : gmap string string)
    (s : State) :
  reachable url attributes s -> m_url (self s) = url.
Proof.
  intros H.
  destruct (reachable_extends_new url attributes s H) as (o & Ho & He).
  rewrite (extends_url _ _ He).
  unfold RedisStorage_new in Ho.
  repeat (break_match; simplify_eq/=). reflexivity.
Qed.

(** With the scheme the assertion asks for and a port that is absent or
    accepted, [connect] returns. *)
Lemma connect_returns (s : State) :
  scheme (m_url (self s)) = "redis" ->
  port (m_url (self s)) = "" \/
  (exists v, parse_unsigned (port (m_url (self s))) 1 65535 "port" = Some v) ->
  exists err, fst (connect s) = Returns err.
Proof.
  intros Hs Hp.
  assert (is_empty (port (m_url (self s))) = false ->
          parse_unsigned (port (m_url (self s))) 1 65535 "port" = None ->
          False) as Hport.
  { intros He Hn. destruct Hp as [Hp|[v Hp]]; [|congruence].
    rewrite Hp in He. discriminate. }
  clear Hp. destruct s as [o w l]. simpl in *.
  crunch; eauto.
  all: try (rewrite Hs in *; discriminate).
  all: try (exfalso; eauto; fail).
Qed.

(** X15: on an object the constructor built from a [redis] URL whose port is
    absent or accepted, every request returns normally at every point of the
    object's life: no exception leaves it, the assertion holds, and hiredis
    is never handed a null handle. *)
Theorem requests_return (url : Url) (attributes : gmap string string)
    (s : State) (r : request) :
  reachable url attributes s ->
  scheme url = "redis" ->
  port url = "" \/
  (exists v, parse_unsigned (port url) 1 65535 "port" = Some v) ->
  finish r s = Returns tt.
Proof.
  intros Hr Hs Hp.
  pose proof (reachable_consistent _ _ _ Hr) as Hc.
  pose proof (reachable_url _ _ _ Hr) as Hu.
  destruct (connect_returns s) as [err Herr]; rewrite ?Hu; auto.
  destruct (connect s) as [o s1] eqn:E. simpl in Herr. subst o.
  assert (is_error err = false -> exists c, m_context (self s1) = Some c)
    as Hctx by eauto using connect_ok_context.
  destruct r as [key|key val only_if_missing|key]; simpl;
    [unfold get | unfold put | unfold remove]; unfold bind at 1;
    rewrite E; simpl;
    destruct (is_timeout err); simpl; auto;
    destruct (is_error err); simpl; auto;
    destruct Hctx as [c Hctx]; auto;
    clear E; crunch.
Qed.

(** X16: an unconditional [put] sends one [SET] and no [EXISTS]; it returns
    [true] for a status-typed reply and [error] for everything else (no
    reply, an error-typed reply, a reply of any other type), and never
    [false]. *)
Theorem put_classifies_reply (key : Digest) (val : string) (s s1 : State)
    (c : redisContext) :
  connect s = (Returns REDIS_OK, s1) ->
  m_context (self s1) = Some c ->
  let argv := ["SET"; c_str (get_key_string (self s1) key); val] in
  fst (put key val false s) =
    Returns match fst (redisCommand c argv (world s1)) with
            | Some r =>
                if type r =? REDIS_REPLY_STATUS then value true
                else unexpected error
            | None => unexpected error
            end /\
  io (snd (put key val false s)) = (io s1 ++ [IoCommand c argv])%list.
Proof.
  intros Hc Hctx argv. subst argv.
  destruct (put key val false s) as [o s'] eqn:E. simpl.
  revert E. unfold put, bind at 1.
  rewrite Hc, is_timeout_ok. simpl. clear Hc. intros E.
  crunch; split; auto; decide_codes.
Qed.

(** X17: once [connect] has returned [REDIS_OK], calling it again returns
    [REDIS_OK] at once: nothing is sent, the credentials are not presented
    again, and the state is the same. *)
Theorem connect_is_idempotent (s s1 : State) :
  connect s = (Returns REDIS_OK, s1) ->
  connect s1 = (Returns REDIS_OK, s1).
Proof.
  intros H. apply connect_connected.
  apply (connect_ok s s1 REDIS_OK H). reflexivity.
Qed.

(** X18: on a connected object a request sends its commands over the held
    handle and nothing else: [GET], [DEL] or [SET] with the namespaced key,
    and for a conditional [put] an [EXISTS] followed by the [SET] or by
    nothing; the object itself is not changed. *)
Theorem request_sends (r : request) (s : State) (c : redisContext) :
  m_connected (self s) = true ->
  m_context (self s) = Some c ->
  self (perform r s) = self s /\
  exists present,
    io (perform r s) = (io s ++ commands_of (self s) c r present)%list.
Proof.
  intros Hconn Hctx. split; [apply request_when_connected; auto|].
  pose proof (connect_connected s Hconn) as Hc.
  destruct r as [key|key val [|]|key]; simpl;
    [unfold get | unfold put | unfold put | unfold remove]; unfold bind at 1;
    rewrite Hc, is_timeout_ok; simpl; clear Hc Hconn.
  - exists false. crunch.
  - crunch; first [ exists true; simpl; reflexivity
                  | exists false; simpl; rewrite <- app_assoc; reflexivity ].
  - exists false. crunch.
  - exists false. crunch.
Qed.

End Requests.

(** ** The same, on the scripted transport *)

Section ScriptedLives.

#[local] Existing Instance Scripted.externals.

Import Scripted Samples.

Lemma parse_unsigned_decimal_bounded : parse_unsigned_bounded.
Proof.
  intros text lo hi d v. simpl. unfold parse_unsigned_decimal.
  destruct (is_empty text); [discriminate|].
  destruct (parse_digits text 0) as [n|]; [|discriminate].
  destruct ((lo <=? n) && (n <=? hi)) eqn:E; [|discriminate].
  intros [= <-]. apply andb_true_iff in E. destruct E as [E1 E2].
  apply Z.leb_le in E1. apply Z.leb_le in E2. lia.
Qed.

Lemma fresh_reachable : reachable url ∅ fresh.
Proof. apply (reachable_new url ∅ (new_object ∅)). reflexivity. Qed.

Lemma served_reachable : reachable url ∅ served.
Proof. apply reachable_request, fresh_reachable. Qed.

Lemma milliseconds_to_timeval_exact_witness :
  0 <= tv_sec (milliseconds_to_timeval 10000) /\
  0 <= tv_usec (milliseconds_to_timeval 10000) < 1000000 /\
  tv_sec (milliseconds_to_timeval 10000) * 1000000
    + tv_usec (milliseconds_to_timeval 10000) = 10000 * 1000.
Proof. apply milliseconds_to_timeval_exact. lia. Defined.

Lemma timeouts_bounded_witness :
  1 <= m_connect_timeout (self patient) <= 3600000 /\
  1 <= m_operation_timeout (self patient) <= 3600000 /\
  0 <= tv_sec (milliseconds_to_timeval (m_connect_timeout (self patient)))
    <= 3600.
Proof.
  apply (@timeouts_bounded externals url quarter_second patient
           parse_unsigned_decimal_bounded).
  apply (reachable_new url quarter_second). vm_compute. reflexivity.
Defined.

Lemma handle_freed_once_witness :
  List.filter is_free (io (snd (RedisStorage_delete served))) =
    match m_context (self served) with
    | Some c => [IoFree c]
    | None => []
    end /\
  m_context (self (snd (RedisStorage_delete served))) = None /\
  RedisStorage_delete (snd (RedisStorage_delete served)) =
    (Returns tt, snd (RedisStorage_delete served)).
Proof. apply (@handle_freed_once externals url ∅ served served_reachable). Defined.

Lemma connects_at_most_once_witness :
  (length (List.filter is_connect (io served)) <= 1)%nat.
Proof. apply (@connects_at_most_once externals url ∅ served served_reachable). Defined.

Lemma calls_use_held_handle_witness :
  m_context (self served) = Some 0%nat /\
  exists first rest, io served = first :: rest /\ is_connect first = true.
Proof.
  apply (@calls_use_held_handle externals url ∅ served
           (@IoCommand externals 0%nat ["GET"; "ccache:d"]) 0%nat
           served_reachable).
  - vm_compute. right. right. left. reflexivity.
  - reflexivity.
Defined.

Lemma failed_connect_is_final_witness :
  m_invalid (self (snd (connect (start ∅ timing_out)))) = true.
Proof.
  apply (@failed_connect_is_final externals (start ∅ timing_out) _ REDIS_ERR_TIMEOUT);
    reflexivity.
Defined.

Lemma malformed_url_is_terminal_witness :
  let r := @Get externals "d" in
  let rs := [@Put externals "d" "v" true; @Remove externals "d"] in
  fails_with error r malformed /\
  m_invalid (self (perform r malformed)) = true /\
  io (perform r malformed) = io malformed /\
  world (perform r malformed) = world malformed /\
  perform_all rs (perform r malformed) = perform r malformed /\
  Forall (fun r' => fails_with error r' (perform r malformed)) rs.
Proof. intros r rs. apply malformed_url_is_terminal; reflexivity. Defined.

Lemma connect_opens_tcp_witness : fst (connect fresh) = Returns REDIS_OK.
Proof.
  rewrite (@connect_opens_tcp externals fresh 0%nat (snd (open (world fresh))));
    try reflexivity.
  discriminate.
Defined.

Lemma connect_attempt_fails_witness :
  fst (connect (start ∅ timing_out)) = Returns REDIS_ERR_TIMEOUT.
Proof.
  rewrite (@connect_attempt_fails externals (start ∅ timing_out) _ _
             (Some 0%nat) (snd (open timing_out)) eq_refl eq_refl eq_refl
             eq_refl
             (attempt_default_port (self (start ∅ timing_out))
                ltac:(discriminate) eq_refl)
             eq_refl ltac:(discriminate)).
  reflexivity.
Defined.

Lemma connect_opens_unix_without_host_witness :
  exists rest,
    io (snd (connect local)) =
      (io local ++
       IoConnectUnix (c_str (path (m_url (self local))))
         (milliseconds_to_timeval (m_connect_timeout (self local))) :: rest)%list.
Proof.
  apply connect_opens_unix_without_host; try reflexivity. discriminate.
Defined.

Lemma connect_refused_port_witness :
  connect port_zero = (Throws "port", port_zero).
Proof.
  apply connect_refused_port; try reflexivity; discriminate.
Defined.

Lemma auth_sends_credentials_witness :
  fst (auth authenticating) = Returns REDIS_OK /\
  io (snd (auth authenticating)) = [IoCommand 0%nat ["AUTH"; "secret"]].
Proof.
  rewrite (@auth_sends_credentials externals authenticating 0%nat "secret");
    try reflexivity.
  split; reflexivity.
Defined.

Lemma requests_return_witness :
  finish (@Put externals "d" "v" true) served = Returns tt.
Proof.
  apply (@requests_return externals url ∅ served _ served_reachable).
  - reflexivity.
  - left. reflexivity.
Defined.

Lemma put_classifies_reply_witness :
  fst (put "d" "v" false (start ∅ (replying status_ok))) =
    Returns (value true) /\
  io (snd (put "d" "v" false (start ∅ (replying status_ok)))) =
    (io (snd (connect (start ∅ (replying status_ok)))) ++
     [IoCommand 0%nat ["SET"; "ccache:d"; "v"]])%list.
Proof.
  exact (@put_classifies_reply externals "d" "v" (start ∅ (replying status_ok))
           (snd (connect (start ∅ (replying status_ok)))) 0%nat
           eq_refl eq_refl).
Defined.

Lemma connect_is_idempotent_witness :
  connect (snd (connect fresh)) = (Returns REDIS_OK, snd (connect fresh)).
Proof. apply (@connect_is_idempotent externals fresh). reflexivity. Defined.

Lemma request_sends_witness :
  self (perform (@Remove externals "d") served) = self served /\
  exists present,
    io (perform (@Remove externals "d") served) =
      (io served ++
       commands_of (self served) 0%nat (@Remove externals "d") present)%list.
Proof. apply request_sends; reflexivity. Defined.

End ScriptedLives.

Section LegacyLives.

#[local] Existing Instance Legacy.externals.

Lemma no_timeout_without_macro_witness :
  ~ fails_with timeout (@Get Legacy.externals "d") Legacy.start.
Proof. apply no_timeout_without_macro. reflexivity. Defined.

End LegacyLives.
